(** * The NBA transfer simulation of examples/nba/nba_agent.py

    A shallow embedding of the simulation core of [nba_agent.py]: the
    [SimulationState] dictionary, the node functions of the graph
    ([simulate_event], [process_event], [team_agent_function],
    [process_transfers]), the routing function and the loop the graph
    wiring produces.

    What lives outside the program is an input of the model: the text the
    event generator answers and the JSON object each team manager answers
    are supplied per turn ([TurnInput]).  The effects the program has on
    the outside (log records, episodes added to the knowledge graph) are
    collected in a [World]. *)

From stdpp Require Import gmap strings list fin_maps pretty.
From Stdlib Require Import ZArith Lia Ascii.

Open Scope Z_scope.

(** ** Data *)

(** A transfer offer: the dictionary under ["transfer_proposal"], with the
    four keys the prompt asks for and the code reads. *)
Record Offer := mkOffer {
  to_team : string;
  from_team : string;
  player_name : string;
  proposed_price : Z
}.

#[global] Instance Offer_eq_dec : EqDecision Offer.
Proof. solve_decision. Defined.

(** [state['messages']] holds plain strings ([process_event]) and
    [HumanMessage] objects ([execute_transfer]). *)
Inductive Message :=
  | Text (s : string)
  | HumanMessage (content : string).

#[global] Instance Message_eq_dec : EqDecision Message.
Proof. solve_decision. Defined.

(** The inner dictionary of [teams]: its only key is ['budget']. *)
Record TeamData := mkTeam { budget : Z }.

#[global] Instance TeamData_eq_dec : EqDecision TeamData.
Proof. solve_decision. Defined.

Record SimulationState := mkState {
  messages : list Message;
  teams : gmap string TeamData;
  event : string;
  transfer_offers : list Offer;
  current_iteration : Z;
  all_events : option (list string);   (* [None]: the key was never given a value *)
  max_iterations : Z
}.

(** ** The world outside the state: log and knowledge graph *)

(** One constructor per logging call of the simulation core, carrying the
    values its f-string interpolates. *)
Inductive LogRecord :=
  | InvalidTransferProposal (transfer_offer : Offer)       (* logger.warning, line 295 *)
  | BestOffer (player : string) (best_offer : Offer)       (* logger.info, line 353 *)
  | CannotProcessTransfer (from_team to_team : string).    (* logger.warning, line 378 *)

Definition is_warning (r : LogRecord) : bool :=
  match r with
  | InvalidTransferProposal _ | CannotProcessTransfer _ _ => true
  | BestOffer _ _ => false
  end.

(** An episode handed to [graphiti_client.add_episode] (the reference time
    is the wall clock and is left out). *)
Record Episode := mkEpisode {
  ep_name : string;
  episode_body : string;
  source_description : string
}.

Record World := mkWorld {
  log : list LogRecord;
  episodes : list Episode
}.

(** ** Exceptions and the monad of the node functions *)

Inductive Exn :=
  | KeyError (key : string)           (* d[k] with k missing *)
  | ValueError (msg : string)         (* max() of an empty sequence *)
  | GraphRecursionError.              (* the graph ran past recursion_limit *)

Inductive Res (A : Type) :=
  | Ok (a : A)
  | Raise (e : Exn).
Arguments Ok {A} a.
Arguments Raise {A} e.

(** A computation reads and extends the world and either returns or
    raises; what it did to the world before raising stays done. *)
Definition M (A : Type) : Type := World → World * Res A.

Definition ret {A} (a : A) : M A := λ w, (w, Ok a).
Definition raise {A} (e : Exn) : M A := λ w, (w, Raise e).
Definition bind {A B} (m : M A) (k : A → M B) : M B :=
  λ w, match m w with
       | (w', Ok a) => k a w'
       | (w', Raise e) => (w', Raise e)
       end.

Notation "x <- m ;; k" := (bind m (λ x, k))
  (at level 100, m at next level, right associativity).
Notation "m ;; k" := (bind m (λ _, k))
  (at level 100, right associativity).

Definition logger (r : LogRecord) : M unit :=
  λ w, (mkWorld (log w ++ [r]) (episodes w), Ok tt).

Definition add_episode (e : Episode) : M unit :=
  λ w, (mkWorld (log w) (episodes w ++ [e]), Ok tt).

(** [for x in l: st = body st x], stopping at the first exception. *)
Fixpoint for_each {A S} (body : S → A → M S) (l : list A) (st : S) : M S :=
  match l with
  | [] => ret st
  | x :: l' => st' <- body st x ;; for_each body l' st'
  end.

(** ** Formatting: [f'{n:,}'] *)

(** Commas between groups of three digits, counted from the right; the
    argument is the digit string reversed. *)
Fixpoint group3_rev (ds : list ascii) : list ascii :=
  match ds with
  | a :: b :: c :: ((_ :: _) as rest) => a :: b :: c :: "," %char :: group3_rev rest
  | _ => ds
  end.

Definition commas_N (n : N) : string :=
  String.string_of_list_ascii
    (rev (group3_rev (rev (String.list_ascii_of_string (pretty n))))).

Definition format_commas (z : Z) : string :=
  match z with
  | Zneg p => "-" +:+ commas_N (Npos p)
  | _ => commas_N (Z.to_N z)
  end.


(** ** Record updates ([{**state, key: value}] and [state[key] = value]) *)

Definition with_messages (v : list Message) (s : SimulationState) : SimulationState :=
  mkState v (teams s) (event s) (transfer_offers s) (current_iteration s)
          (all_events s) (max_iterations s).

Definition with_teams (v : gmap string TeamData) (s : SimulationState) : SimulationState :=
  mkState (messages s) v (event s) (transfer_offers s) (current_iteration s)
          (all_events s) (max_iterations s).

Definition with_transfer_offers (v : list Offer) (s : SimulationState) : SimulationState :=
  mkState (messages s) (teams s) (event s) v (current_iteration s)
          (all_events s) (max_iterations s).

(** ** [execute_transfer] (lines 191-209) *)

Definition transfer_episode (player_name from_team to_team : string) (price : Z) : Episode :=
  mkEpisode ("Transfer " +:+ player_name)
            (player_name +:+ " transferred from " +:+ from_team +:+ " to " +:+ to_team
               +:+ " for $" +:+ format_commas price)
            "Player Transfer".

Definition transfer_message (player_name from_team to_team : string) (price : Z) : Message :=
  HumanMessage ("Transfer executed: " +:+ player_name +:+ " moved from " +:+ from_team
                  +:+ " to " +:+ to_team +:+ " for $" +:+ format_commas price).

(** Returns the value of the ['messages'] key of the dictionary it builds. *)
Definition execute_transfer (player_name from_team to_team : string) (price : Z)
  : M (list Message) :=
  add_episode (transfer_episode player_name from_team to_team price) ;;
  ret [transfer_message player_name from_team to_team price].

(** ** [process_transfers] (lines 337-383) *)

(** [max(l, key=key)]: the first element whose key no later element
    exceeds strictly; [ValueError] on an empty list. *)
Definition max_from {A} (key : A → Z) (first : A) (l : list A) : A :=
  foldl (λ best x, if bool_decide (key best < key x) then x else best) first l.

Definition py_max {A} (key : A → Z) (l : list A) : M A :=
  match l with
  | [] => raise (ValueError "max() arg is an empty sequence")
  | x :: l' => ret (max_from key x l')
  end.

(** [offers_by_player]: a dictionary iterated in insertion order, kept as
    the list of its items.  One pass of the grouping loop (lines 344-347):
    a new player gets a new last entry, a known player's list grows. *)
Fixpoint dict_append (player : string) (offer : Offer) (d : list (string * list Offer))
  : list (string * list Offer) :=
  match d with
  | [] => [(player, [offer])]
  | (k, v) :: d' =>
      if decide (k = player) then (k, v ++ [offer]) :: d'
      else (k, v) :: dict_append player offer d'
  end.

Definition group_offers (offers : list Offer) : list (string * list Offer) :=
  foldl (λ d offer, dict_append (player_name offer) offer d) [] offers.

(** [state['teams'][team]['budget'] += delta] *)
Definition budget_add (team : string) (delta : Z) (state : SimulationState)
  : M SimulationState :=
  match teams state !! team with
  | Some team_data =>
      ret (with_teams (<[team := mkTeam (budget team_data + delta)]> (teams state)) state)
  | None => raise (KeyError team)
  end.

(** The body of the loop over [offers_by_player.items()] (lines 350-378). *)
Definition transfer_step (state : SimulationState) (item : string * list Offer)
  : M SimulationState :=
  let '(player, offers) := item in
  best_offer <- py_max proposed_price offers ;;
  logger (BestOffer player best_offer) ;;
  transfer_result <- execute_transfer (player_name best_offer) (from_team best_offer)
                       (to_team best_offer) (proposed_price best_offer) ;;
  let state := with_messages (messages state ++ transfer_result) state in
  let from_team := from_team best_offer in
  let to_team := to_team best_offer in
  let price := proposed_price best_offer in
  if decide (from_team ∈ dom (teams state) ∧ to_team ∈ dom (teams state)) then
    state <- budget_add from_team price state ;;
    budget_add to_team (- price) state
  else
    logger (CannotProcessTransfer from_team to_team) ;;
    ret state.

Definition process_transfers (state : SimulationState) : M SimulationState :=
  match transfer_offers state with
  | [] => ret state
  | _ :: _ =>
      let offers_by_player := group_offers (transfer_offers state) in
      state <- for_each transfer_step offers_by_player state ;;
      ret (with_transfer_offers [] state)
  end.

(** ** [team_agent_function] (lines 271-300) *)

(** What the executor's output parses to.  Only the key
    ['transfer_proposal'] is read: [Some o] when it is there.  The
    dictionary under it is taken to be the one the prompt asks for, with
    its four keys and an integer price ([Offer]); [team_agent_function]
    itself reads ['to_team'] and ['from_team'] only, and a dictionary
    without ['player_name'] or ['proposed_price'], which it would let
    through, is outside this model. *)
Definition JsonResult : Type := option Offer.

Definition team_agent_function (team_name : string) (valid_teams : list string)
    (json_result : JsonResult) (state : SimulationState) : M (list Offer) :=
  match teams state !! team_name with
  | None => raise (KeyError team_name)               (* state['teams'][team_name] *)
  | Some team_data =>
      transfer_offer <-
        match json_result with
        | Some transfer_offer =>
            if decide (to_team transfer_offer ∉ valid_teams
                       ∨ from_team transfer_offer ∉ valid_teams)
            then logger (InvalidTransferProposal transfer_offer) ;; ret None
            else ret (Some transfer_offer)
        | None => ret None
        end ;;
      ret (match transfer_offer with Some o => [o] | None => [] end)
  end.

(** ** [process_event], [simulate_event], [routing_function] *)

Definition process_event (state : SimulationState) : M SimulationState :=
  ret (mkState [Text ("Event processed: " +:+ event state)] (teams state) (event state)
               [] (current_iteration state) (all_events state) (max_iterations state)).

(** [new_event] is the text the event generator answered.
    [state['all_events'] or []] is the list when there is one, else [[]]. *)
Definition simulate_event (new_event : string) (state : SimulationState)
  : M SimulationState :=
  let existing_events := default [] (all_events state) in
  let existing_events := existing_events ++ [new_event] in
  ret (mkState (messages state) (teams state) new_event [] (current_iteration state + 1)
               (Some existing_events) (max_iterations state)).

Inductive Route := END | to_simulate_event.

Definition routing_function (state : SimulationState) : Route :=
  if current_iteration state >=? max_iterations state then END
  else to_simulate_event.

(** ** The graph (lines 429-465) *)

Definition valid_teams : list string :=
  ["Toronto Raptors"; "Boston Celtics"; "Golden State Warriors"].

(** [SimulationState] declares [messages] and [transfer_offers] with
    [operator.add] (lines 49 and 52): what a node returns under these keys
    is added to the list the graph holds, which is how the three agents'
    one-element lists become one list.  Every other key is overwritten. *)
Definition write_state (channels returned : SimulationState) : SimulationState :=
  mkState (messages channels ++ messages returned) (teams returned) (event returned)
          (transfer_offers channels ++ transfer_offers returned)
          (current_iteration returned) (all_events returned) (max_iterations returned).

Definition write_offers (channels : SimulationState) (returned : list Offer)
  : SimulationState :=
  with_transfer_offers (transfer_offers channels ++ returned) channels.

(** What the outside answers in one turn. *)
Record TurnInput := mkInput {
  new_event : string;
  agent_output : string → JsonResult
}.

(** The agent nodes all read the state [process_event] left; their lists
    are added one after the other, here in the order of [valid_teams]. *)
Fixpoint collect_offers (agents : list string) (output : string → JsonResult)
    (state : SimulationState) : M (list Offer) :=
  match agents with
  | [] => ret []
  | team :: agents' =>
      offers <- team_agent_function team valid_teams (output team) state ;;
      rest <- collect_offers agents' output state ;;
      ret (offers ++ rest)
  end.

(** START -> simulate_event -> process_event -> agents: the state
    [process_transfers] is called on. *)
Definition resolution_input (inp : TurnInput) (channels : SimulationState)
  : M SimulationState :=
  returned <- simulate_event (new_event inp) channels ;;
  let channels := write_state channels returned in
  returned <- process_event channels ;;
  let channels := write_state channels returned in
  offers <- collect_offers valid_teams (agent_output inp) channels ;;
  ret (write_offers channels offers).

(** [process_transfers] extends the list under ['messages'] in place, so
    the list the graph holds is extended with it before the returned one is
    added; the assignment to [state['transfer_offers']] rebinds the key of
    the dictionary the node was given and leaves the graph's list alone. *)
Definition resolve (channels : SimulationState) : M SimulationState :=
  returned <- process_transfers channels ;;
  ret (write_state (with_messages (messages returned) channels) returned).

Definition turn (inp : TurnInput) (channels : SimulationState) : M SimulationState :=
  channels <- resolution_input inp channels ;;
  resolve channels.

(** The loop the edges make: a turn, then [routing_function].  [fuel]
    bounds the number of turns. *)
Fixpoint run_graph (fuel : nat) (env : nat → TurnInput) (n : nat)
    (channels : SimulationState) : M SimulationState :=
  match fuel with
  | O => raise GraphRecursionError
  | S fuel' =>
      channels <- turn (env n) channels ;;
      match routing_function channels with
      | END => ret channels
      | to_simulate_event => run_graph fuel' env (S n) channels
      end
  end.

(** [app.ainvoke(initial_state, {'recursion_limit': ...})]: a turn takes
    four steps of the graph (the three agents run in one), and the graph
    raises [GraphRecursionError] unless it comes to [END] in fewer steps
    than the limit: [n] turns fit when [4 * n + 1 ≤ recursion_limit].
    What a turn that does not fit has done by then is not modelled. *)
Definition app_invoke (recursion_limit : nat) (env : nat → TurnInput)
    (initial_state : SimulationState) : M SimulationState :=
  run_graph ((recursion_limit - 1) / 4) env 0%nat initial_state.

(** ** [run_simulation] (lines 470-486) *)

(** [run_simulation] gives no ['all_events']: the first [simulate_event]
    finds no list there. *)
Definition initial_state (num_iterations : Z) : SimulationState :=
  mkState []
          (<["Toronto Raptors" := mkTeam 100000000]>
             (<["Boston Celtics" := mkTeam 100000000]>
                (<["Golden State Warriors" := mkTeam 100000000]> ∅)))
          "" [] 0 None num_iterations.

Definition run_simulation (num_iterations : Z) (env : nat → TurnInput)
  : M SimulationState :=
  app_invoke 200 env (initial_state num_iterations).

(** ** Pure readings of the resolution step, used to state its properties *)

(** The players of a list of offers, each once, in the order they first
    appear: the keys of [offers_by_player]. *)
Definition first_seen (offers : list Offer) : list string :=
  foldl (λ ks o, if decide (player_name o ∈ ks) then ks else ks ++ [player_name o])
        [] offers.

Definition offers_for (player : string) (offers : list Offer) : list Offer :=
  filter (λ o, player_name o = player) offers.

Definition best_of (item : string * list Offer) : option Offer :=
  match item.2 with
  | [] => None
  | x :: l => Some (max_from proposed_price x l)
  end.

(** The offers the loop of [process_transfers] executes, in its order. *)
Definition selected_offers (offers : list Offer) : list Offer :=
  omap best_of (group_offers offers).

(** [o] sits in [offers] so that every earlier offer for the same player is
    strictly cheaper and no later one is dearer. *)
Definition is_winner (offers : list Offer) (o : Offer) : Prop :=
  ∃ before after,
    offers = before ++ o :: after
    ∧ (∀ o', o' ∈ before → player_name o' = player_name o →
             proposed_price o' < proposed_price o)
    ∧ (∀ o', o' ∈ after → player_name o' = player_name o →
             proposed_price o' ≤ proposed_price o).

Definition in_roster (ts : gmap string TeamData) (o : Offer) : Prop :=
  from_team o ∈ dom ts ∧ to_team o ∈ dom ts.

#[global] Instance in_roster_dec ts o : Decision (in_roster ts o).
Proof. unfold in_roster. apply _. Defined.

Definition credit (delta : Z) (team_data : TeamData) : TeamData :=
  mkTeam (budget team_data + delta).

(** The budgets after one executed offer. *)
Definition settle (ts : gmap string TeamData) (o : Offer) : gmap string TeamData :=
  if decide (in_roster ts o) then
    alter (credit (- proposed_price o)) (to_team o)
          (alter (credit (proposed_price o)) (from_team o) ts)
  else ts.

Definition message_of (o : Offer) : Message :=
  transfer_message (player_name o) (from_team o) (to_team o) (proposed_price o).

Definition episode_of (o : Offer) : Episode :=
  transfer_episode (player_name o) (from_team o) (to_team o) (proposed_price o).

(** What one pass of the loop writes to the log. *)
Definition step_log (ts : gmap string TeamData) (player : string) (o : Offer)
  : list LogRecord :=
  BestOffer player o ::
  (if decide (in_roster ts o) then []
   else [CannotProcessTransfer (from_team o) (to_team o)]).

Definition total_budget (ts : gmap string TeamData) : Z :=
  map_fold (λ _ team_data acc, budget team_data + acc) 0 ts.

Definition budget_of (ts : gmap string TeamData) (team : string) : option Z :=
  budget <$> ts !! team.

(** What the loop of [process_transfers] leaves, pass by pass. *)
Definition step_state (state : SimulationState) (o : Offer) : SimulationState :=
  with_teams (settle (teams state) o)
             (with_messages (messages state ++ [message_of o]) state).

Definition resolution_log (ts : gmap string TeamData) (items : list (string * list Offer))
  : list LogRecord :=
  concat ((λ item, match best_of item with
                   | Some o => step_log ts item.1 o
                   | None => []
                   end) <$> items).

(** ** Pure readings of a turn *)

Definition roster_valid (o : Offer) : Prop :=
  to_team o ∈ valid_teams ∧ from_team o ∈ valid_teams.

(** What an agent node returns and logs, given what its executor answered. *)
Definition agent_offers (vt : list string) (out : JsonResult) : list Offer :=
  match out with
  | Some o => if decide (to_team o ∉ vt ∨ from_team o ∉ vt) then [] else [o]
  | None => []
  end.

Definition agent_log (vt : list string) (out : JsonResult) : list LogRecord :=
  match out with
  | Some o =>
      if decide (to_team o ∉ vt ∨ from_team o ∉ vt) then [InvalidTransferProposal o]
      else []
  | None => []
  end.

Definition collected (agents : list string) (output : string → JsonResult) : list Offer :=
  concat ((λ team, agent_offers valid_teams (output team)) <$> agents).

Definition collected_log (agents : list string) (output : string → JsonResult)
  : list LogRecord :=
  concat ((λ team, agent_log valid_teams (output team)) <$> agents).

(** The state [process_transfers] is called on in a turn. *)
Definition entering (inp : TurnInput) (channels : SimulationState) : SimulationState :=
  mkState ((messages channels ++ messages channels)
             ++ [Text ("Event processed: " +:+ new_event inp)])
          (teams channels) (new_event inp)
          (transfer_offers channels ++ collected valid_teams (agent_output inp))
          (current_iteration channels + 1)
          (Some (default [] (all_events channels) ++ [new_event inp]))
          (max_iterations channels).

(** The state of the graph after [process_transfers] has run on [state]. *)
Definition resolved (state : SimulationState) : SimulationState :=
  let sel := selected_offers (transfer_offers state) in
  let recorded := messages state ++ (message_of <$> sel) in
  mkState (recorded ++ recorded) (foldl settle (teams state) sel) (event state)
          (transfer_offers state) (current_iteration state)
          (all_events state) (max_iterations state).

(** ** Ownership, as the specification speaks of it *)

(** [SimulationState] has no record of who owns a player.  To state what a
    stale offer is, an ownership table is given from outside: an offer is
    stale when the table does not name its [from_team] as the owner. *)
Definition stale (owners : gmap string string) (o : Offer) : Prop :=
  owners !! player_name o ≠ Some (from_team o).

(** ** States and answers used in the examples *)

(** A state holding the given offers, with the roster and budgets of
    [run_simulation]. *)
Definition state_with (offers : list Offer) : SimulationState :=
  with_transfer_offers offers (initial_state 1).

Definition no_effects : World := mkWorld [] [].

(** An offer of the Lakers, who are not among the three teams. *)
Definition lakers_offer : Offer :=
  mkOffer "Boston Celtics" "Los Angeles Lakers" "LeBron James" 5000000.

(** Toronto bids for Tatum in the first turn; nobody bids after that. *)
Definition tatum_offer : Offer :=
  mkOffer "Toronto Raptors" "Boston Celtics" "Jayson Tatum" 1000.

Definition one_bid (n : nat) : TurnInput :=
  match n with
  | O => mkInput "Tatum scores 50"
           (λ team, if decide (team = "Toronto Raptors") then Some tatum_offer else None)
  | S _ => mkInput "A quiet night" (λ _, None)
  end.

(** ** [propose_transfer] and [parse_transfer_proposal] (lines 185-188, 305-325) *)

(** The sentence the tool returns. *)
Definition propose_transfer (player_name from_team to_team : string) (proposed_price : Z)
  : string :=
  "TRANSFER PROPOSAL: " +:+ to_team +:+ " wants to buy " +:+ player_name
    +:+ " from " +:+ from_team +:+ " for $" +:+ format_commas proposed_price +:+ ".".

(** The searches below run over the characters of a string.  A string is
    its bytes here; the patterns of [parse_transfer_proposal] only name
    ASCII characters, which no byte of a longer character equals, so the
    groups found are the ones found character by character. *)
Definition chars (s : string) : list ascii := String.list_ascii_of_string s.
Definition text (l : list ascii) : string := String.string_of_list_ascii l.

Definition newline : ascii := "010"%char.
Definition dollar : ascii := "$"%char.
Definition comma : ascii := ","%char.

(** [(.*?)suf] tried at the head of [s]: the shortest run of characters
    other than newline after which [suf] follows. *)
Fixpoint lazy_group (suf s : list ascii) : option (list ascii) :=
  if decide (suf `prefix_of` s) then Some []
  else match s with
       | [] => None
       | c :: s' => if decide (c = newline) then None else (c ::.) <$> lazy_group suf s'
       end.

(** [re.search(pre + '(.*?)' + suf, s)] for literal [pre] and [suf]: group 1
    of the match at the leftmost position where there is one ([.] stands
    for any character but newline). *)
Fixpoint re_search_group (pre suf s : list ascii) : option (list ascii) :=
  let here := if decide (pre `prefix_of` s) then lazy_group suf (drop (length pre) s)
              else None in
  match here, s with
  | Some g, _ => Some g
  | None, [] => None
  | None, _ :: s' => re_search_group pre suf s'
  end.

(** The class [[0-9,]]. *)
Definition is_digit (c : ascii) : bool :=
  (48 <=? nat_of_ascii c)%nat && (nat_of_ascii c <=? 57)%nat.
Definition price_char (c : ascii) : bool := is_digit c || bool_decide (c = comma).

(** The longest run of characters of a class at the head of a list. *)
Fixpoint span {A} (p : A → bool) (l : list A) : list A :=
  match l with
  | x :: l' => if p x then x :: span p l' else []
  | [] => []
  end.

(** [re.search(r'\$([0-9,]+)', s)]: group 1, the digits and commas after
    the first dollar sign that has some. *)
Fixpoint re_search_price (s : list ascii) : option (list ascii) :=
  match s with
  | [] => None
  | c :: s' =>
      if decide (c = dollar) then
        match span price_char s' with
        | [] => re_search_price s'
        | run => Some run
        end
      else re_search_price s'
  end.

Definition digit_value (c : ascii) : Z := Z.of_nat (nat_of_ascii c) - 48.

Definition digits_value (l : list ascii) : Z :=
  foldl (λ n c, 10 * n + digit_value c) 0 l.

(** [int(s)] for what reaches it here, a string of digits: its value, and
    [ValueError] when the string is empty. *)
Definition py_int (s : list ascii) : Res Z :=
  if bool_decide (s ≠ []) && forallb is_digit s
  then Ok (digits_value s)
  else Raise (ValueError ("invalid literal for int() with base 10: '" +:+ text s +:+ "'")).

(** The four searches are made first; [all([...])] then asks for the four
    matches, and [int] reads the price with its commas taken out. *)
Definition parse_transfer_proposal (proposal : string) : Res Offer :=
  let to_team_match := re_search_group [] (chars " wants to buy") (chars proposal) in
  let player_match := re_search_group (chars "buy ") (chars " from") (chars proposal) in
  let from_team_match := re_search_group (chars "from ") (chars " for") (chars proposal) in
  let price_match := re_search_price (chars proposal) in
  match to_team_match, player_match, from_team_match, price_match with
  | Some to_team, Some player_name, Some from_team, Some price =>
      match py_int (filter (λ c, c ≠ comma) price) with
      | Ok proposed_price =>
          Ok (mkOffer (text to_team) (text from_team) (text player_name) proposed_price)
      | Raise e => Raise e
      end
  | _, _, _, _ => Raise (ValueError ("Unable to parse transfer proposal: " +:+ proposal))
  end.

(** ** Readings used to state the further properties *)

(** [d] occurs in [s] as a run of consecutive characters. *)
Fixpoint contains (d s : list ascii) : bool :=
  if decide (d `prefix_of` s) then true
  else match s with
       | [] => false
       | _ :: s' => contains d s'
       end.

Definition occurs_in (d s : string) : bool := contains (chars d) (chars s).

(** A name that can stand in the sentence: one line, no dollar sign. *)
Definition plain (s : string) : Prop :=
  (newline ∉ chars s) ∧ (dollar ∉ chars s).

(** Each delimiter of the sentence [propose_transfer] writes occurs first
    where the sentence has it, not earlier inside or across a name. *)
Definition delimiters_unambiguous (player_name from_team to_team : string) : Prop :=
  occurs_in " wants to buy" ("TRANSFER PROPOSAL: " +:+ to_team +:+ " wants to bu") = false
  ∧ occurs_in "buy " ("TRANSFER PROPOSAL: " +:+ to_team +:+ " wants to buy") = false
  ∧ occurs_in " from" (player_name +:+ " fro") = false
  ∧ occurs_in "from " ("TRANSFER PROPOSAL: " +:+ to_team +:+ " wants to buy "
                         +:+ player_name +:+ " from") = false
  ∧ occurs_in " for" (from_team +:+ " fo") = false.

(** What one executed offer brings [team]: the price if it sells, minus the
    price if it buys, nothing if a team of the offer is not in [ts]. *)
Definition gain (ts : gmap string TeamData) (team : string) (o : Offer) : Z :=
  if decide (in_roster ts o) then
    (if decide (from_team o = team) then proposed_price o else 0)
    - (if decide (to_team o = team) then proposed_price o else 0)
  else 0.

Definition net_gain (ts : gmap string TeamData) (sel : list Offer) (team : string) : Z :=
  foldr (λ o acc, gain ts team o + acc) 0 sel.

(** The events of [turns] turns, from turn [n] on. *)
Definition events (env : nat → TurnInput) (n turns : nat) : list string :=
  (λ i, new_event (env i)) <$> seq n turns.

(** ** Offers and a state used in the examples of the further properties *)

(** Two bids for Tatum and one for Barnes. *)
Definition two_bids : list Offer :=
  [mkOffer "Toronto Raptors" "Boston Celtics" "Jayson Tatum" 1000;
   mkOffer "Golden State Warriors" "Toronto Raptors" "Scottie Barnes" 400;
   mkOffer "Golden State Warriors" "Boston Celtics" "Jayson Tatum" 900].

(** The state of [run_simulation] with one of the three teams left out. *)
Definition without_boston : SimulationState :=
  with_teams (delete "Boston Celtics" (teams (initial_state 1))) (initial_state 1).

(** * Proofs *)

(** ** The grouping dictionary *)

Section Grouping.
Implicit Types (offers : list Offer) (ks : list string) (o : Offer).

Lemma group_offers_snoc offers o :
  group_offers (offers ++ [o]) = dict_append (player_name o) o (group_offers offers).
Proof. unfold group_offers. by rewrite foldl_app. Qed.

Lemma first_seen_snoc offers o :
  first_seen (offers ++ [o]) =
    if decide (player_name o ∈ first_seen offers) then first_seen offers
    else first_seen offers ++ [player_name o].
Proof. unfold first_seen. by rewrite foldl_app. Qed.

Lemma elem_of_first_seen offers k :
  k ∈ first_seen offers ↔ ∃ o, o ∈ offers ∧ player_name o = k.
Proof.
  induction offers as [|o offers IH] using rev_ind.
  - split; [by intros ?%elem_of_nil | by intros (? & ?%elem_of_nil & _)].
  - assert (Hsnoc : (∃ o', o' ∈ offers ++ [o] ∧ player_name o' = k)
                    ↔ k ∈ first_seen offers ∨ k = player_name o).
    { rewrite IH. split.
      - intros (o' & [?| ->%list_elem_of_singleton]%elem_of_app & <-); eauto.
      - intros [(o' & ? & ?) | ->]; [exists o'|exists o];
          (split; [apply elem_of_app|done]); [by left | right; left]. }
    rewrite first_seen_snoc, Hsnoc. case_decide as Hin.
    + split; [by left|]. by intros [?| ->].
    + by rewrite elem_of_app, list_elem_of_singleton.
Qed.

Lemma NoDup_first_seen offers : NoDup (first_seen offers).
Proof.
  induction offers as [|o offers IH] using rev_ind; [constructor|].
  rewrite first_seen_snoc. case_decide; [done|].
  apply NoDup_app. split_and!; [done| |apply NoDup_singleton].
  intros k ? ->%list_elem_of_singleton. done.
Qed.

Lemma offers_for_snoc k offers o :
  offers_for k (offers ++ [o]) =
    if decide (player_name o = k) then offers_for k offers ++ [o]
    else offers_for k offers.
Proof.
  unfold offers_for. rewrite filter_app, filter_cons, filter_nil.
  case_decide; [done | by rewrite app_nil_r].
Qed.

Lemma offers_for_nil k offers : k ∉ first_seen offers → offers_for k offers = [].
Proof.
  rewrite elem_of_first_seen. intros Hk. unfold offers_for.
  induction offers as [|o offers IH]; [done|].
  rewrite filter_cons. case_decide as Heq.
  - destruct Hk. exists o. split; [left|done].
  - apply IH. intros (o' & ? & ?). apply Hk. exists o'. split; [by right|done].
Qed.

(** One pass of the grouping loop over a dictionary whose values are the
    per-player sublists of the offers seen so far. *)
Lemma dict_append_grouped o offers ks :
  NoDup ks →
  (player_name o ∉ ks → offers_for (player_name o) offers = []) →
  dict_append (player_name o) o ((λ k, (k, offers_for k offers)) <$> ks) =
    (λ k, (k, offers_for k (offers ++ [o]))) <$>
      (if decide (player_name o ∈ ks) then ks else ks ++ [player_name o]).
Proof.
  intros Hnd Hnew. induction Hnd as [|k ks Hk Hnd IH].
  - rewrite decide_False by apply not_elem_of_nil. cbn.
    rewrite offers_for_snoc, decide_True, Hnew by (done || apply not_elem_of_nil).
    done.
  - cbn. destruct (decide (k = player_name o)) as [->|Hne].
    + rewrite decide_True by left. cbn. f_equal.
      * by rewrite offers_for_snoc, decide_True.
      * apply list_fmap_ext. intros _ k' Hk'%list_elem_of_lookup_2.
        rewrite offers_for_snoc, decide_False; [done|]. by intros <-.
    + assert (offers_for k (offers ++ [o]) = offers_for k offers) as Hsame.
      { by rewrite offers_for_snoc, decide_False. }
      rewrite IH by (intros Hnot; apply Hnew; intros [?|?]%elem_of_cons; done).
      destruct (decide (player_name o ∈ ks)) as [Hin|Hin].
      * rewrite decide_True by (by right). cbn. by rewrite Hsame.
      * rewrite decide_False by (intros [?|?]%elem_of_cons; done). cbn.
        by rewrite Hsame.
Qed.

(** The dictionary in closed form. *)
Lemma group_offers_spec offers :
  group_offers offers = (λ k, (k, offers_for k offers)) <$> first_seen offers.
Proof.
  induction offers as [|o offers IH] using rev_ind; [done|].
  rewrite group_offers_snoc, IH, first_seen_snoc.
  apply dict_append_grouped; [apply NoDup_first_seen | apply offers_for_nil].
Qed.
End Grouping.

(** ** The best offer of a group *)

Section BestOffer.
Context {A : Type} (key : A → Z).

Lemma max_from_cons best x rest :
  max_from key best (x :: rest) =
    max_from key (if bool_decide (key best < key x) then x else best) rest.
Proof. done. Qed.

Lemma max_from_split_gen rest : ∀ seen best before after,
  seen = before ++ best :: after →
  Forall (λ x, key x < key best) before →
  Forall (λ x, key x ≤ key best) after →
  ∃ before' after',
    seen ++ rest = before' ++ max_from key best rest :: after'
    ∧ Forall (λ x, key x < key (max_from key best rest)) before'
    ∧ Forall (λ x, key x ≤ key (max_from key best rest)) after'.
Proof.
  induction rest as [|x rest IH]; intros seen best before after -> Hlt Hle.
  - exists before, after. by rewrite app_nil_r.
  - rewrite max_from_cons. case_bool_decide as Hx.
    + destruct (IH ((before ++ best :: after) ++ [x]) x (before ++ best :: after) [])
        as (b' & a' & Heq & ? & ?); [done| |constructor|].
      { apply Forall_app. split; [|constructor].
        - eapply Forall_impl; [exact Hlt|]. cbn. intros; lia.
        - done.
        - eapply Forall_impl; [exact Hle|]. cbn. intros; lia. }
      exists b', a'. split_and!; [|done..].
      rewrite <- Heq. by rewrite <- (assoc_L (++) _ [x] rest).
    + destruct (IH ((before ++ best :: after) ++ [x]) best before (after ++ [x]))
        as (b' & a' & Heq & ? & ?); [by rewrite <- (assoc_L (++) before)|done| |].
      { apply Forall_app. split; [done|]. constructor; [lia|constructor]. }
      exists b', a'. split_and!; [|done..].
      rewrite <- Heq. by rewrite <- (assoc_L (++) _ [x] rest).
Qed.

(** Python's [max]: the result splits the list into strictly smaller
    keys before it and keys no larger after it. *)
Lemma max_from_split first rest :
  ∃ before after,
    first :: rest = before ++ max_from key first rest :: after
    ∧ Forall (λ x, key x < key (max_from key first rest)) before
    ∧ Forall (λ x, key x ≤ key (max_from key first rest)) after.
Proof.
  destruct (max_from_split_gen rest [first] first [] []) as (b & a & ? & ? & ?);
    [done|constructor|constructor|].
  by exists b, a.
Qed.
End BestOffer.

Lemma filter_split {A} (P : A → Prop) `{!∀ x, Decision (P x)} (l : list A) :
  ∀ l1 x l2, filter P l = l1 ++ x :: l2 →
    ∃ L1 L2, l = L1 ++ x :: L2 ∧ filter P L1 = l1 ∧ filter P L2 = l2.
Proof.
  induction l as [|a l IH]; intros l1 x l2 Heq.
  - by destruct l1.
  - rewrite filter_cons in Heq. destruct (decide (P a)) as [Ha|Ha].
    + destruct l1 as [|b l1]; cbn in Heq; injection Heq as -> Heq.
      * exists [], l. by rewrite filter_nil.
      * destruct (IH _ _ _ Heq) as (L1 & L2 & -> & <- & <-).
        exists (b :: L1), L2. by rewrite filter_cons, decide_True.
    + destruct (IH _ _ _ Heq) as (L1 & L2 & -> & <- & <-).
      exists (a :: L1), L2. by rewrite filter_cons, decide_False.
Qed.

Section Selected.
Implicit Types (offers : list Offer) (o : Offer).

Lemma best_of_group offers k :
  k ∈ first_seen offers →
  ∃ o, best_of (k, offers_for k offers) = Some o
       ∧ player_name o = k ∧ is_winner offers o.
Proof.
  intros (o0 & Ho0 & Hk)%elem_of_first_seen.
  unfold best_of. cbn.
  destruct (offers_for k offers) as [|first rest] eqn:Hgroup.
  { exfalso. eapply (filter_nil_not_elem_of (λ o, player_name o = k)); eauto. }
  destruct (max_from_split proposed_price first rest) as (l1 & l2 & Hsplit & Hlt & Hle).
  set (o := max_from proposed_price first rest) in *.
  rewrite <- Hgroup in Hsplit. unfold offers_for in Hsplit.
  destruct (filter_split _ _ _ _ _ Hsplit) as (L1 & L2 & Hoffers & <- & <-).
  assert (player_name o = k) as Ho.
  { assert (o ∈ filter (λ o, player_name o = k) offers) as Hin.
    { rewrite Hsplit. apply elem_of_app. right. left. }
    by apply list_elem_of_filter in Hin as [? _]. }
  exists o. split_and!; [done..|].
  exists L1, L2. split_and!; [done|..].
  - intros o' Hin Hp. rewrite Forall_forall in Hlt. apply Hlt.
    apply list_elem_of_filter. split; [congruence|done].
  - intros o' Hin Hp. rewrite Forall_forall in Hle. apply Hle.
    apply list_elem_of_filter. split; [congruence|done].
Qed.

Lemma selected_offers_players offers :
  player_name <$> selected_offers offers = first_seen offers.
Proof.
  unfold selected_offers. rewrite group_offers_spec.
  assert (∀ ks : list string, (∀ k, k ∈ ks → k ∈ first_seen offers) →
            player_name <$> omap best_of ((λ k, (k, offers_for k offers)) <$> ks) = ks)
    as Hgen; [|by apply Hgen].
  induction ks as [|k ks IH]; intros Hks; [done|].
  cbn. destruct (best_of_group offers k) as (o & -> & Ho & _); [apply Hks; left|].
  cbn. rewrite Ho, IH; [done|]. intros k' ?. apply Hks. by right.
Qed.

Lemma selected_offers_winner offers o :
  o ∈ selected_offers offers → is_winner offers o.
Proof.
  unfold selected_offers. rewrite group_offers_spec.
  intros ([k v] & Hin & Hbest)%list_elem_of_omap.
  apply list_elem_of_fmap in Hin as (k' & [= -> ->] & Hk').
  destruct (best_of_group offers k' Hk') as (o' & Hbest' & _ & Hwin).
  congruence.
Qed.

Lemma selected_offers_elem_of offers o :
  o ∈ selected_offers offers → o ∈ offers.
Proof.
  intros (before & after & -> & _)%selected_offers_winner.
  apply elem_of_app. right. left.
Qed.

Lemma selected_offers_nil : selected_offers [] = [].
Proof. done. Qed.
End Selected.

(** ** Running [process_transfers] *)

Section RunTransfers.
Implicit Types (state : SimulationState) (w : World) (o : Offer)
               (ts : gmap string TeamData).

Lemma insert_credit ts team team_data delta :
  ts !! team = Some team_data →
  <[team := mkTeam (budget team_data + delta)]> ts = alter (credit delta) team ts.
Proof.
  intros Hteam. apply map_eq. intros k.
  rewrite lookup_insert, lookup_alter.
  destruct (decide (team = k)) as [->|]; [by rewrite Hteam | done].
Qed.

Lemma budget_add_run team delta state w :
  team ∈ dom (teams state) →
  budget_add team delta state w =
    (w, Ok (with_teams (alter (credit delta) team (teams state)) state)).
Proof.
  intros [team_data Hteam]%elem_of_dom. unfold budget_add. rewrite Hteam.
  unfold ret. by rewrite (insert_credit _ _ _ _ Hteam).
Qed.

Lemma dom_settle ts o : dom (settle ts o) = dom ts.
Proof. unfold settle. case_decide; [|done]. by rewrite !dom_alter_L. Qed.

Lemma step_log_settle ts o' player o :
  step_log (settle ts o') player o = step_log ts player o.
Proof.
  unfold step_log. pose proof (dom_settle ts o') as Hdom.
  destruct (decide (in_roster (settle ts o') o)) as [Hin|Hout],
           (decide (in_roster ts o)) as [Hin'|Hout']; try done;
    unfold in_roster in *; rewrite Hdom in *; done.
Qed.

Lemma resolution_log_settle ts o' items :
  resolution_log (settle ts o') items = resolution_log ts items.
Proof.
  unfold resolution_log. f_equal. apply list_fmap_ext. intros _ item _.
  destruct (best_of item); [apply step_log_settle | done].
Qed.

Lemma transfer_step_run state player first rest w :
  let o := max_from proposed_price first rest in
  transfer_step state (player, first :: rest) w =
    (mkWorld (log w ++ step_log (teams state) player o)
             (episodes w ++ [episode_of o]),
     Ok (step_state state o)).
Proof.
  intros o. unfold transfer_step, py_max, bind, ret, logger, execute_transfer, bind,
    add_episode, ret. cbn -[max_from]. fold o.
  unfold step_log, step_state, settle, in_roster. cbn.
  destruct (decide (from_team o ∈ dom (teams state) ∧ to_team o ∈ dom (teams state)))
    as [[Hfrom Hto]|Hno].
  - rewrite budget_add_run by done. cbn.
    rewrite budget_add_run by (cbn; by rewrite dom_alter_L).
    done.
  - cbn. by rewrite <- (assoc_L (++)).
Qed.

Lemma for_each_transfer_step items : ∀ state w,
  Forall (λ item, is_Some (best_of item)) items →
  for_each transfer_step items state w =
    (mkWorld (log w ++ resolution_log (teams state) items)
             (episodes w ++ (episode_of <$> omap best_of items)),
     Ok (foldl step_state state (omap best_of items))).
Proof.
  induction items as [|[player offers] items IH]; intros state w Hitems.
  - cbn. unfold ret. destruct w. cbn. by rewrite !app_nil_r.
  - apply Forall_cons in Hitems as [[o Ho] Hitems].
    destruct offers as [|first rest]; [done|].
    assert (omap best_of ((player, first :: rest) :: items) = o :: omap best_of items)
      as ->.
    { cbn [omap list_omap]. by rewrite Ho. }
    assert (resolution_log (teams state) ((player, first :: rest) :: items) =
              step_log (teams state) player o ++ resolution_log (teams state) items)
      as ->.
    { unfold resolution_log. cbn [fmap list_fmap concat]. by rewrite Ho. }
    injection Ho as Ho.
    cbn [for_each]. unfold bind. rewrite transfer_step_run. cbv zeta. rewrite Ho.
    rewrite IH by done.
    change (teams (step_state state o)) with (settle (teams state) o).
    rewrite resolution_log_settle. cbn [log episodes fmap list_fmap foldl].
    by rewrite <- !(assoc_L (++)).
Qed.

Lemma group_offers_best offers :
  Forall (λ item, is_Some (best_of item)) (group_offers offers).
Proof.
  rewrite group_offers_spec. apply Forall_fmap, Forall_forall. intros k Hk.
  destruct (best_of_group offers k Hk) as (o & Ho & _). by exists o.
Qed.

Lemma foldl_step_state sel : ∀ state,
  foldl step_state state sel =
    mkState (messages state ++ (message_of <$> sel)) (foldl settle (teams state) sel)
            (event state) (transfer_offers state) (current_iteration state)
            (all_events state) (max_iterations state).
Proof.
  induction sel as [|o sel IH]; intros state.
  - destruct state. cbn. by rewrite app_nil_r.
  - cbn [foldl]. rewrite IH. cbn. by rewrite <- (assoc_L (++)).
Qed.

(** [process_transfers] always returns; this is the state it returns and
    what it leaves in the log and in the knowledge graph. *)
Lemma process_transfers_run state w :
  let sel := selected_offers (transfer_offers state) in
  process_transfers state w =
    (mkWorld (log w ++ resolution_log (teams state) (group_offers (transfer_offers state)))
             (episodes w ++ (episode_of <$> sel)),
     Ok (mkState (messages state ++ (message_of <$> sel))
                 (foldl settle (teams state) sel)
                 (event state) [] (current_iteration state)
                 (all_events state) (max_iterations state))).
Proof.
  intros sel. unfold process_transfers.
  destruct (transfer_offers state) as [|o0 offers] eqn:Hoffers.
  - subst sel. rewrite selected_offers_nil. destruct state, w. cbn in *. subst.
    unfold ret. by rewrite !app_nil_r.
  - unfold bind. rewrite for_each_transfer_step by apply group_offers_best.
    fold (selected_offers (o0 :: offers)). fold sel.
    unfold ret. by rewrite foldl_step_state.
Qed.
End RunTransfers.

(** ** Budgets *)

Section Budgets.
Implicit Types (ts : gmap string TeamData) (o : Offer).

Lemma total_budget_insert ts team team_data :
  ts !! team = None →
  total_budget (<[team := team_data]> ts) = budget team_data + total_budget ts.
Proof.
  intros Hnone. unfold total_budget.
  rewrite map_fold_insert_L; [done| |done]. intros; lia.
Qed.

Lemma total_budget_alter ts team team_data delta :
  ts !! team = Some team_data →
  total_budget (alter (credit delta) team ts) = total_budget ts + delta.
Proof.
  intros Hteam.
  rewrite <- (insert_credit _ _ _ _ Hteam), <- insert_delete_eq.
  rewrite total_budget_insert by apply lookup_delete_eq.
  rewrite <- (insert_delete_id ts team team_data Hteam) at 2.
  rewrite total_budget_insert by apply lookup_delete_eq. cbn. lia.
Qed.

Lemma total_budget_settle ts o : total_budget (settle ts o) = total_budget ts.
Proof.
  unfold settle. case_decide as Hin; [|done].
  destruct Hin as [[tf Hf]%elem_of_dom [tt Ht]%elem_of_dom].
  assert (is_Some (alter (credit (proposed_price o)) (from_team o) ts !! to_team o))
    as [tt' Ht'].
  { rewrite lookup_alter.
    destruct (decide (from_team o = to_team o)); [rewrite Hf | rewrite Ht]; by eexists. }
  rewrite (total_budget_alter _ _ _ _ Ht'), (total_budget_alter _ _ _ _ Hf). lia.
Qed.

Lemma total_budget_foldl_settle sel : ∀ ts,
  total_budget (foldl settle ts sel) = total_budget ts.
Proof.
  induction sel as [|o sel IH]; intros ts; [done|].
  cbn. by rewrite IH, total_budget_settle.
Qed.

Lemma dom_foldl_settle sel : ∀ ts, dom (foldl settle ts sel) = dom ts.
Proof.
  induction sel as [|o sel IH]; intros ts; [done|].
  cbn. by rewrite IH, dom_settle.
Qed.

(** An offer between two different teams of the roster: the buyer pays,
    the seller is paid, nobody else is touched. *)
Lemma settle_moves_price ts o b_from b_to :
  budget_of ts (from_team o) = Some b_from →
  budget_of ts (to_team o) = Some b_to →
  from_team o ≠ to_team o →
  budget_of (settle ts o) (to_team o) = Some (b_to - proposed_price o)
  ∧ budget_of (settle ts o) (from_team o) = Some (b_from + proposed_price o)
  ∧ (∀ team, team ≠ from_team o → team ≠ to_team o →
             settle ts o !! team = ts !! team).
Proof.
  unfold budget_of. intros Hf Ht Hne.
  destruct (ts !! from_team o) as [tf|] eqn:Hf'; [|done].
  destruct (ts !! to_team o) as [tt|] eqn:Ht'; [|done].
  cbn in Hf, Ht. simplify_eq.
  unfold settle. rewrite decide_True; last first.
  { split; apply elem_of_dom; by eexists. }
  split_and!.
  - rewrite lookup_alter, decide_True by done.
    rewrite lookup_alter, decide_False by done. rewrite Ht'. cbn; f_equal; lia.
  - rewrite lookup_alter, decide_False by done.
    rewrite lookup_alter, decide_True by done. by rewrite Hf'.
  - intros team ? ?. rewrite lookup_alter, decide_False by done.
    by rewrite lookup_alter, decide_False.
Qed.

(** A team that sells to itself: nothing moves. *)
Lemma settle_self ts o : from_team o = to_team o → settle ts o = ts.
Proof.
  intros Heq. unfold settle. case_decide as Hin; [|done].
  destruct Hin as [[tf Hf]%elem_of_dom _]. rewrite <- Heq.
  apply map_eq. intros team. rewrite !lookup_alter.
  case_decide as Hteam; [|done]. subst team. rewrite Hf. cbn.
  destruct tf as [b]. unfold credit. rewrite decide_True by done.
  cbn. do 2 f_equal. lia.
Qed.

Lemma settle_out_of_roster ts o : ¬ in_roster ts o → settle ts o = ts.
Proof. intros Hout. unfold settle. by rewrite decide_False. Qed.

Lemma foldl_settle_in_roster sel : ∀ ts,
  foldl settle ts sel = foldl settle ts (filter (in_roster ts) sel).
Proof.
  induction sel as [|o sel IH]; intros ts; [done|].
  rewrite filter_cons. cbn [foldl].
  assert (∀ l : list Offer,
            filter (in_roster (settle ts o)) l = filter (in_roster ts) l) as Hsame.
  { intros l. apply list_filter_iff. intros o'. unfold in_roster.
    by rewrite dom_settle. }
  destruct (decide (in_roster ts o)) as [Hin|Hout].
  - cbn [foldl]. by rewrite IH, Hsame.
  - rewrite (settle_out_of_roster _ _ Hout). apply IH.
Qed.
End Budgets.

(** * Properties of the resolution step *)

(** A named team is, or is not, in a roster that is written out. *)
Ltac team_in_roster := apply elem_of_dom; eexists; vm_compute; reflexivity.
Ltac team_not_in_roster :=
  let Hteam := fresh "Hteam" in
  intros [[? Hteam]%elem_of_dom _]; vm_compute in Hteam; discriminate.

(** ** One transfer per player: the highest price, the earliest on a tie *)

(** C1. For every state, [process_transfers] executes exactly the offers
    [selected_offers] picks from [state['transfer_offers']]: their messages
    and episodes are recorded and the budgets are settled offer by offer.
    No two executed offers are for the same player, every player with an
    offer gets one, and each executed offer has the highest price offered
    for its player, every earlier offer for that player being strictly
    cheaper (so the earliest of the highest offers is taken). *)
Theorem process_transfers_selects_highest_earliest (state : SimulationState) (w : World) :
  ∃ state' w',
    process_transfers state w = (w', Ok state')
    ∧ let sel := selected_offers (transfer_offers state) in
      messages state' = messages state ++ (message_of <$> sel)
      ∧ episodes w' = episodes w ++ (episode_of <$> sel)
      ∧ teams state' = foldl settle (teams state) sel
      ∧ NoDup (player_name <$> sel)
      ∧ (∀ o, o ∈ transfer_offers state → player_name o ∈ player_name <$> sel)
      ∧ (∀ o, o ∈ sel → is_winner (transfer_offers state) o).
Proof.
  eexists _, _. split; [apply process_transfers_run|]. cbn.
  split_and!; [done..| | |].
  - rewrite selected_offers_players. apply NoDup_first_seen.
  - intros o Ho. rewrite selected_offers_players. apply elem_of_first_seen. eauto.
  - apply selected_offers_winner.
Qed.

(** Three teams with 100 each and a player R of A's: B offers 30, C offers
    50, then B offers 50 as well, which comes too late to beat C's offer.
    C buys from A. *)
Example highest_offer_wins_tie_goes_to_first :
  let ts : gmap string TeamData :=
    <["A" := mkTeam 100]> (<["B" := mkTeam 100]> (<["C" := mkTeam 100]> ∅)) in
  let offers := [mkOffer "B" "A" "R" 30; mkOffer "C" "A" "R" 50; mkOffer "B" "A" "R" 50] in
  ∃ state' w',
    process_transfers (mkState [] ts "" offers 1 None 1) no_effects = (w', Ok state')
    ∧ selected_offers offers = [mkOffer "C" "A" "R" 50]
    ∧ budget_of (teams state') "A" = Some 150
    ∧ budget_of (teams state') "B" = Some 100
    ∧ budget_of (teams state') "C" = Some 50.
Proof. eexists _, _. split; [vm_compute; reflexivity|]. by vm_compute. Qed.

(** ** A team that is not in [state['teams']] *)

Lemma resolution_log_cons ts item items :
  resolution_log ts (item :: items) =
    match best_of item with Some o => step_log ts item.1 o | None => [] end
    ++ resolution_log ts items.
Proof. done. Qed.

Lemma resolution_log_warning ts items item o :
  item ∈ items → best_of item = Some o → ¬ in_roster ts o →
  CannotProcessTransfer (from_team o) (to_team o) ∈ resolution_log ts items.
Proof.
  intros Hitem Hbest Hout. induction Hitem as [item items|item item' items _ IH].
  - rewrite resolution_log_cons, Hbest. unfold step_log.
    rewrite decide_False by done. apply elem_of_app. left. right. left.
  - rewrite resolution_log_cons. apply elem_of_app. right. by apply IH.
Qed.

(** A selected offer with a team outside [state['teams']] moves no budget,
    yet its message and its episode are recorded. *)
Lemma skipped_transfer_is_recorded (state : SimulationState) (w : World) (o : Offer) :
  o ∈ selected_offers (transfer_offers state) →
  ¬ in_roster (teams state) o →
  ∃ state' w',
    process_transfers state w = (w', Ok state')
    ∧ message_of o ∈ messages state'
    ∧ episode_of o ∈ episodes w'
    ∧ settle (teams state) o = teams state.
Proof.
  intros Hsel Hout. eexists _, _. split; [apply process_transfers_run|].
  cbn. split_and!.
  - apply elem_of_app. right. by apply list_elem_of_fmap_2.
  - apply elem_of_app. right. by apply list_elem_of_fmap_2.
  - by apply settle_out_of_roster.
Qed.

(** C6. [process_transfers] on a state whose only offer names the Lakers:
    the episode is added and the message "Transfer executed: ..." is
    appended before the roster is looked at; then the warning is logged and
    no budget changes.  The failed transfer leaves its record behind. *)
Theorem unknown_team_transfer_leaves_its_record :
  process_transfers (state_with [lakers_offer]) no_effects =
    (mkWorld [BestOffer "LeBron James" lakers_offer;
              CannotProcessTransfer "Los Angeles Lakers" "Boston Celtics"]
             [mkEpisode "Transfer LeBron James"
                "LeBron James transferred from Los Angeles Lakers to Boston Celtics for $5,000,000"
                "Player Transfer"],
     Ok (mkState
           [HumanMessage
              "Transfer executed: LeBron James moved from Los Angeles Lakers to Boston Celtics for $5,000,000"]
           (teams (initial_state 1)) "" [] 0 None 1)).
Proof. vm_compute. reflexivity. Qed.

(** The statement of C7 fails: with an offer whose selling team is not in
    [state['teams']], [process_transfers] raises nothing. *)
Lemma unknown_team_raises_nothing :
  ¬ in_roster (teams (state_with [lakers_offer])) lakers_offer
  ∧ ∀ e, (process_transfers (state_with [lakers_offer]) no_effects).2 ≠ Raise e.
Proof.
  split.
  - team_not_in_roster.
  - intros e. by rewrite process_transfers_run.
Qed.

(** C7, as amended. When the offer selected for some player names a team
    that is not in [state['teams']], [process_transfers] still returns: it
    logs the warning "Cannot process transfer", changes no budget for that
    offer and goes on; the teams of the state are the same set as before. *)
Theorem unknown_team_is_warned_about_and_skipped
    (state : SimulationState) (w : World) (o : Offer) :
  o ∈ selected_offers (transfer_offers state) →
  ¬ in_roster (teams state) o →
  ∃ state' w',
    process_transfers state w = (w', Ok state')
    ∧ CannotProcessTransfer (from_team o) (to_team o) ∈ log w'
    ∧ is_warning (CannotProcessTransfer (from_team o) (to_team o)) = true
    ∧ teams state' =
        foldl settle (teams state)
              (filter (λ o', o' ≠ o) (selected_offers (transfer_offers state)))
    ∧ dom (teams state') = dom (teams state).
Proof.
  intros Hsel Hout. eexists _, _. split; [apply process_transfers_run|].
  cbn. split_and!; [|done| |apply dom_foldl_settle].
  - apply elem_of_app. right.
    apply list_elem_of_omap in Hsel as (item & Hitem & Hbest).
    by eapply resolution_log_warning.
  - rewrite foldl_settle_in_roster.
    rewrite (foldl_settle_in_roster (filter (λ o', o' ≠ o) _)). f_equal.
    rewrite list_filter_filter. apply list_filter_iff. intros o'.
    split; [|by intros [? _]]. intros Hin. split; [done|]. by intros ->.
Qed.

Lemma unknown_team_is_warned_about_and_skipped_witness :
  ∃ state' w',
    process_transfers (state_with [lakers_offer]) no_effects = (w', Ok state')
    ∧ CannotProcessTransfer "Los Angeles Lakers" "Boston Celtics" ∈ log w'
    ∧ is_warning (CannotProcessTransfer "Los Angeles Lakers" "Boston Celtics") = true
    ∧ teams state' =
        foldl settle (teams (state_with [lakers_offer]))
              (filter (λ o', o' ≠ lakers_offer)
                      (selected_offers (transfer_offers (state_with [lakers_offer]))))
    ∧ dom (teams state') = dom (teams (state_with [lakers_offer])).
Proof.
  apply (unknown_team_is_warned_about_and_skipped
           (state_with [lakers_offer]) no_effects lakers_offer).
  - vm_compute. left.
  - team_not_in_roster.
Defined.

(** ** Offers from a team that no longer owns the player *)

(** The statement of C8 fails.  Tatum has moved from Boston to Toronto (the
    state's messages say so, and so does the ownership table); an offer to
    buy him from Boston is stale, and [process_transfers] executes it: no
    failure is logged and 1000 moves from Golden State to Boston. *)
Lemma stale_offer_is_executed :
  let moved := mkOffer "Toronto Raptors" "Boston Celtics" "Jayson Tatum" 500 in
  let o := mkOffer "Golden State Warriors" "Boston Celtics" "Jayson Tatum" 1000 in
  let owners : gmap string string := {["Jayson Tatum" := "Toronto Raptors"]} in
  let state := with_messages [message_of moved] (state_with [o]) in
  stale owners o
  ∧ ∃ state' w',
      process_transfers state no_effects = (w', Ok state')
      ∧ log w' = [BestOffer "Jayson Tatum" o]
      ∧ budget_of (teams state) "Boston Celtics" = Some 100000000
      ∧ budget_of (teams state') "Boston Celtics" = Some 100001000
      ∧ budget_of (teams state') "Golden State Warriors" = Some 99999000.
Proof.
  intros moved o owners state. split.
  - unfold stale. vm_compute. discriminate.
  - eexists _, _. split; [vm_compute; reflexivity|]. by vm_compute.
Qed.

(** C8, as amended. [process_transfers] asks nobody who owns a player: the
    budgets it leaves are those of settling, in order, every selected offer
    whose two teams are in [state['teams']], stale or not.  A selected
    offer with a team outside [state['teams']] is the only one skipped: a
    warning is logged for it, it changes no budget, and it changes nothing
    for the other players' offers.  One message per selected offer is
    recorded, so no group stops the loop. *)
Theorem resolution_skips_only_unknown_teams (state : SimulationState) (w : World) :
  ∃ state' w',
    process_transfers state w = (w', Ok state')
    ∧ let sel := selected_offers (transfer_offers state) in
      teams state' = foldl settle (teams state) (filter (in_roster (teams state)) sel)
      ∧ length (messages state') = (length (messages state) + length sel)%nat
      ∧ (∀ o, o ∈ sel → ¬ in_roster (teams state) o →
              CannotProcessTransfer (from_team o) (to_team o) ∈ log w')
      ∧ (∀ o, o ∈ sel → in_roster (teams state) o →
              CannotProcessTransfer (from_team o) (to_team o) ∉ log w →
              CannotProcessTransfer (from_team o) (to_team o) ∉ log w').
Proof.
  eexists _, _. split; [apply process_transfers_run|]. cbn.
  split_and!.
  - apply foldl_settle_in_roster.
  - by rewrite length_app, length_fmap.
  - intros o Hsel Hout. apply elem_of_app. right.
    apply list_elem_of_omap in Hsel as (item & Hitem & Hbest).
    by eapply resolution_log_warning.
  - intros o Hsel Hin Hw [?|Hlog]%elem_of_app; [done|].
    clear Hsel. unfold in_roster in Hin.
    induction (group_offers (transfer_offers state)) as [|item items IH].
    + by apply elem_of_nil in Hlog.
    + rewrite resolution_log_cons in Hlog.
      apply elem_of_app in Hlog as [Hitem|Hrest]; [|by apply IH].
      destruct (best_of item) as [o'|]; [|by apply elem_of_nil in Hitem].
      unfold step_log in Hitem. apply elem_of_cons in Hitem as [?|Hitem]; [done|].
      case_decide as Hin'; [by apply elem_of_nil in Hitem|].
      apply list_elem_of_singleton in Hitem as [= Hf Ht].
      unfold in_roster in Hin'. by rewrite <- Hf, <- Ht in Hin'.
Qed.

(** * Properties of a turn and of the run *)

(** ** Collecting the offers *)

Section Turn.
Implicit Types (state channels : SimulationState) (w : World) (inp : TurnInput).

Lemma team_agent_function_run team vt out state w :
  team ∈ dom (teams state) →
  team_agent_function team vt out state w =
    (mkWorld (log w ++ agent_log vt out) (episodes w), Ok (agent_offers vt out)).
Proof.
  intros [team_data Hteam]%elem_of_dom.
  unfold team_agent_function, agent_log, agent_offers. rewrite Hteam.
  destruct out as [o|]; unfold bind, ret, logger; cbn.
  - destruct (decide (to_team o ∉ vt ∨ from_team o ∉ vt)); cbn; [done|].
    destruct w. cbn. by rewrite app_nil_r.
  - destruct w. cbn. by rewrite app_nil_r.
Qed.

Lemma collect_offers_run agents output state w :
  Forall (λ team, team ∈ dom (teams state)) agents →
  collect_offers agents output state w =
    (mkWorld (log w ++ collected_log agents output) (episodes w),
     Ok (collected agents output)).
Proof.
  intros Hagents. revert w.
  induction Hagents as [|team agents Hteam _ IH]; intros w.
  - destruct w. cbn. unfold ret. cbn. by rewrite app_nil_r.
  - cbn [collect_offers]. unfold bind at 1.
    rewrite team_agent_function_run by done. unfold bind at 1. rewrite IH.
    unfold ret, collected, collected_log. cbn. by rewrite <- (assoc_L (++)).
Qed.

Lemma resolution_input_run inp channels w :
  Forall (λ team, team ∈ dom (teams channels)) valid_teams →
  resolution_input inp channels w =
    (mkWorld (log w ++ collected_log valid_teams (agent_output inp)) (episodes w),
     Ok (entering inp channels)).
Proof.
  intros Hroster. unfold resolution_input, simulate_event, process_event.
  unfold bind at 1. unfold ret at 1. unfold bind at 1. unfold ret at 1.
  unfold bind. rewrite collect_offers_run by done.
  unfold ret, entering, write_offers, write_state, with_transfer_offers. cbn.
  by rewrite !app_nil_r.
Qed.

Lemma resolve_run state w :
  resolve state w =
    (mkWorld (log w ++ resolution_log (teams state) (group_offers (transfer_offers state)))
             (episodes w ++ (episode_of <$> selected_offers (transfer_offers state))),
     Ok (resolved state)).
Proof.
  unfold resolve, bind. rewrite process_transfers_run.
  unfold ret, resolved, write_state, with_messages. cbn. by rewrite app_nil_r.
Qed.

Lemma turn_run inp channels w :
  Forall (λ team, team ∈ dom (teams channels)) valid_teams →
  ∃ w', turn inp channels w = (w', Ok (resolved (entering inp channels))).
Proof.
  intros Hroster. unfold turn, bind. rewrite resolution_input_run by done.
  rewrite resolve_run. by eexists.
Qed.

Lemma turn_roster inp channels :
  dom (teams (resolved (entering inp channels))) = dom (teams channels).
Proof. cbn. apply dom_foldl_settle. Qed.

(** A turn adds one to the counter and keeps the bound. *)
Lemma turn_counter inp channels :
  current_iteration (resolved (entering inp channels)) = current_iteration channels + 1
  ∧ max_iterations (resolved (entering inp channels)) = max_iterations channels.
Proof. done. Qed.

(** A turn keeps every offer the graph held and adds the collected ones. *)
Lemma turn_keeps_offers inp channels :
  transfer_offers (resolved (entering inp channels)) =
    transfer_offers channels ++ collected valid_teams (agent_output inp).
Proof. done. Qed.

Lemma turn_total_budget inp channels :
  total_budget (teams (resolved (entering inp channels))) = total_budget (teams channels).
Proof. cbn. apply total_budget_foldl_settle. Qed.
End Turn.

Lemma agent_offers_valid (out : JsonResult) :
  Forall roster_valid (agent_offers valid_teams out).
Proof.
  destruct out as [o|]; unfold agent_offers; [|constructor].
  destruct (decide (to_team o ∉ valid_teams ∨ from_team o ∉ valid_teams))
    as [|Hinvalid]; [constructor|].
  constructor; [|constructor]. unfold roster_valid.
  destruct (decide (to_team o ∈ valid_teams)), (decide (from_team o ∈ valid_teams));
    tauto.
Qed.

Lemma collected_valid (agents : list string) (output : string → JsonResult) :
  Forall roster_valid (collected agents output).
Proof.
  unfold collected. induction agents as [|team agents IH]; [constructor|].
  cbn. apply Forall_app. split; [apply agent_offers_valid | apply IH].
Qed.

Lemma invalid_proposal_is_not_collected (agents : list string)
    (output : string → JsonResult) (o : Offer) :
  ¬ roster_valid o → o ∉ collected agents output.
Proof.
  intros Hinvalid Hin. apply Hinvalid.
  by apply (proj1 (Forall_forall _ _) (collected_valid agents output)).
Qed.

Lemma turn_offers_valid (inp : TurnInput) (channels : SimulationState) :
  Forall roster_valid (transfer_offers channels) →
  Forall roster_valid (transfer_offers (resolved (entering inp channels))).
Proof.
  intros Hvalid. rewrite turn_keeps_offers.
  apply Forall_app. split; [done | apply collected_valid].
Qed.

(** ** The loop *)

Section Run.
Implicit Types (channels : SimulationState) (w : World) (env : nat → TurnInput).

Lemma routing_function_END channels :
  routing_function channels = END ↔ max_iterations channels ≤ current_iteration channels.
Proof.
  unfold routing_function. destruct (Z.geb_spec (current_iteration channels)
                                                (max_iterations channels)).
  - split; [lia|done].
  - split; [done|lia].
Qed.

(** With fuel for them, the loop makes [max 1 (max_iterations -
    current_iteration)] turns: the first turn is made before
    [routing_function] is asked. *)
Lemma run_graph_turns fuel : ∀ env n channels w,
  Forall (λ team, team ∈ dom (teams channels)) valid_teams →
  Z.max 1 (max_iterations channels - current_iteration channels) ≤ Z.of_nat fuel →
  ∃ final w',
    run_graph fuel env n channels w = (w', Ok final)
    ∧ current_iteration final =
        current_iteration channels
        + Z.max 1 (max_iterations channels - current_iteration channels)
    ∧ max_iterations final = max_iterations channels
    ∧ total_budget (teams final) = total_budget (teams channels)
    ∧ (Forall roster_valid (transfer_offers channels) →
       Forall roster_valid (transfer_offers final)).
Proof.
  induction fuel as [|fuel IH]; intros env n channels w Hroster Hfuel; [lia|].
  cbn [run_graph]. unfold bind.
  destruct (turn_run (env n) channels w Hroster) as [w1 ->].
  set (channels1 := resolved (entering (env n) channels)).
  destruct (turn_counter (env n) channels) as [Hcur Hmax]. fold channels1 in Hcur, Hmax.
  pose proof (turn_total_budget (env n) channels) as Htotal. fold channels1 in Htotal.
  pose proof (turn_offers_valid (env n) channels) as Hvalid. fold channels1 in Hvalid.
  destruct (routing_function channels1) eqn:Hroute.
  - apply routing_function_END in Hroute. eexists _, _.
    split; [done|]. split_and!; [lia|done..].
  - assert (¬ max_iterations channels1 ≤ current_iteration channels1) as Hlt.
    { intros Hge%routing_function_END. congruence. }
    destruct (IH env (S n) channels1 w1)
      as (final & w' & -> & Hfinal & Hmax' & Htot' & Hvalid').
    { unfold channels1. rewrite Forall_forall in Hroster |- *.
      intros team Hteam. rewrite turn_roster. by apply Hroster. }
    { lia. }
    eexists _, _. split; [done|]. split_and!; [lia|congruence..|auto].
Qed.

Lemma initial_state_roster num_iterations :
  Forall (λ team, team ∈ dom (teams (initial_state num_iterations))) valid_teams.
Proof.
  repeat constructor; team_in_roster.
Qed.

(** Asked for one to forty-nine turns, the loop makes that many within
    the steps [run_simulation] allows. *)
Lemma run_simulation_counter num_iterations env w :
  1 ≤ num_iterations ≤ 49 →
  ∃ final w',
    run_simulation num_iterations env w = (w', Ok final)
    ∧ current_iteration final = num_iterations
    ∧ max_iterations final = num_iterations.
Proof.
  intros Hn. unfold run_simulation, app_invoke.
  destruct (run_graph_turns ((200 - 1) / 4) env 0%nat (initial_state num_iterations) w)
    as (final & w' & Hrun & Hcur & Hmax & _ & _).
  { apply initial_state_roster. }
  { change (Z.of_nat ((200 - 1) / 4)) with 49. cbn. lia. }
  exists final, w'. split; [done|]. cbn in Hcur, Hmax. lia.
Qed.

(** Asked for no turn, it makes one. *)
Lemma run_simulation_zero env w :
  ∃ w', run_simulation 0 env w =
          (w', Ok (resolved (entering (env 0%nat) (initial_state 0)))).
Proof.
  unfold run_simulation, app_invoke.
  change ((200 - 1) / 4)%nat with (S 48). cbn [run_graph]. unfold bind.
  destruct (turn_run (env 0%nat) (initial_state 0) w (initial_state_roster 0))
    as [w1 ->].
  by exists w1.
Qed.
End Run.

(** ** Budgets move, the total stays *)

(** C2, as amended. One pass of the resolution loop, for any state and any
    group of offers, with [o] the best offer of the group.
    - When [o] names two different teams of [state['teams']], the pass
      takes the price from the buyer's budget, adds it to the seller's and
      leaves every other team alone.
    - When the buyer and the seller of [o] are the same team, the pass
      changes no budget: the teams are as they were.
    - In every case (two teams, one team, a team that is not in
      [state['teams']]) the total of the budgets is the same after the pass,
      the same after the whole of [process_transfers], and the same after a
      whole turn of the graph. *)
Theorem resolved_transfer_moves_price
    (state : SimulationState) (player : string) (first : Offer) (rest : list Offer)
    (w : World) :
  let o := max_from proposed_price first rest in
  ∃ state' w',
    transfer_step state (player, first :: rest) w = (w', Ok state')
    ∧ (∀ b_from b_to,
         budget_of (teams state) (from_team o) = Some b_from →
         budget_of (teams state) (to_team o) = Some b_to →
         from_team o ≠ to_team o →
         budget_of (teams state') (to_team o) = Some (b_to - proposed_price o)
         ∧ budget_of (teams state') (from_team o) = Some (b_from + proposed_price o)
         ∧ (∀ team, team ≠ from_team o → team ≠ to_team o →
                    teams state' !! team = teams state !! team))
    ∧ (from_team o = to_team o → teams state' = teams state)
    ∧ total_budget (teams state') = total_budget (teams state)
    ∧ (∃ after w'', process_transfers state w = (w'', Ok after)
                    ∧ total_budget (teams after) = total_budget (teams state))
    ∧ (∀ inp, Forall (λ team, team ∈ dom (teams state)) valid_teams →
              ∃ after w'', turn inp state w = (w'', Ok after)
                           ∧ total_budget (teams after) = total_budget (teams state)).
Proof.
  intros o. eexists _, _. split; [apply transfer_step_run|].
  fold o. cbn [teams step_state with_teams].
  split_and!.
  - intros b_from b_to Hfrom Hto Hne. by apply settle_moves_price.
  - apply settle_self.
  - apply total_budget_settle.
  - eexists _, _. split; [apply process_transfers_run|].
    cbn. apply total_budget_foldl_settle.
  - intros inp Hroster. destruct (turn_run inp state w Hroster) as [w'' Hturn].
    eexists _, _. split; [exact Hturn|]. apply turn_total_budget.
Qed.

Lemma resolved_transfer_moves_price_witness :
  let o := mkOffer "Toronto Raptors" "Boston Celtics" "Jayson Tatum" 1000 in
  let state := state_with [o] in
  ∃ state' w',
    transfer_step state ("Jayson Tatum", [o]) no_effects = (w', Ok state')
    ∧ budget_of (teams state') "Toronto Raptors" = Some (100000000 - 1000)
    ∧ budget_of (teams state') "Boston Celtics" = Some (100000000 + 1000)
    ∧ (∀ team, team ≠ "Boston Celtics" → team ≠ "Toronto Raptors" →
               teams state' !! team = teams state !! team)
    ∧ total_budget (teams state') = total_budget (teams state)
    ∧ (∃ after w'', process_transfers state no_effects = (w'', Ok after)
                    ∧ total_budget (teams after) = total_budget (teams state))
    ∧ ∃ after w'', turn (one_bid 1%nat) state no_effects = (w'', Ok after)
                   ∧ total_budget (teams after) = total_budget (teams state).
Proof.
  intros o state.
  destruct (resolved_transfer_moves_price state "Jayson Tatum" o [] no_effects)
    as (state' & w' & Hrun & Hmoves & _ & Htotal & Hall & Hturn).
  exists state', w'.
  destruct (Hmoves 100000000 100000000) as (Hto & Hfrom & Hothers);
    [reflexivity | reflexivity | discriminate |].
  split_and!; [exact Hrun | exact Hto | exact Hfrom | exact Hothers | exact Htotal
               | exact Hall |].
  apply Hturn. apply initial_state_roster.
Defined.

(** The statement of C2 fails for a team that buys from itself, an offer
    the agents accept: the transfer is executed and recorded, both teams
    are in the roster, the price is not zero, and no budget changes. *)
Lemma self_transfer_changes_no_budget :
  let o := mkOffer "Boston Celtics" "Boston Celtics" "Jayson Tatum" 1000 in
  let state := state_with [o] in
  in_roster (teams state) o
  ∧ ∃ state' w',
      process_transfers state no_effects = (w', Ok state')
      ∧ messages state' = [message_of o]
      ∧ budget_of (teams state') (to_team o) ≠ Some (100000000 - proposed_price o)
      ∧ teams state' = teams state.
Proof.
  intros o state. split.
  - split; team_in_roster.
  - eexists _, _. split; [apply process_transfers_run|].
    split_and!; [by vm_compute | by vm_compute |].
    cbn. change (selected_offers [o]) with [o]. cbn. by apply settle_self.
Qed.

(** C3. [run_simulation] with [max_iterations = 0]: whatever the outside
    answers, one turn is made before [routing_function] is first asked.  The
    state returned has an event, one entry in [all_events] and the counter
    at 1: it is not the initial state. *)
Theorem zero_iterations_runs_one_turn (env : nat → TurnInput) :
  ∃ final w',
    run_simulation 0 env no_effects = (w', Ok final)
    ∧ event final = new_event (env 0%nat)
    ∧ all_events final = Some [new_event (env 0%nat)]
    ∧ current_iteration final = 1
    ∧ final ≠ initial_state 0.
Proof.
  destruct (run_simulation_zero env no_effects) as [w' Hrun].
  eexists _, w'. split; [exact Hrun|]. split_and!; [done..|].
  intros Heq. apply (f_equal current_iteration) in Heq. discriminate.
Qed.

(** C4. [run_simulation] with [max_iterations = 0]: the counter of the
    state returned is 1, above [max_iterations]. *)
Theorem counter_exceeds_zero_max_iterations (env : nat → TurnInput) :
  ∃ final w',
    run_simulation 0 env no_effects = (w', Ok final)
    ∧ current_iteration (initial_state 0) = 0
    ∧ max_iterations final = 0
    ∧ current_iteration final = 1
    ∧ current_iteration final > max_iterations final.
Proof.
  destruct (run_simulation_zero env no_effects) as [w' Hrun].
  eexists _, w'. split; [exact Hrun|]. split_and!; done.
Qed.

(** ** Offers from one turn to the next *)

(** The dictionary [process_transfers] returns has no offer left. *)
Lemma process_transfers_returns_no_offers (state : SimulationState) (w : World) :
  ∃ state' w', process_transfers state w = (w', Ok state') ∧ transfer_offers state' = [].
Proof. eexists _, _. split; [apply process_transfers_run|done]. Qed.

(** C5. Two turns, one offer made in the first.  The empty list
    [process_transfers] returns is added to the list the graph holds, which
    therefore keeps the offer: after the first turn it is still there, the
    second turn resolves it again, and Toronto has paid Boston twice. *)
Theorem offer_is_carried_into_next_turn :
  (∃ w1, turn (one_bid 0%nat) (initial_state 2) no_effects
         = (w1, Ok (resolved (entering (one_bid 0%nat) (initial_state 2))))
         ∧ transfer_offers (resolved (entering (one_bid 0%nat) (initial_state 2)))
           = [tatum_offer])
  ∧ collected valid_teams (agent_output (one_bid 1%nat)) = []
  ∧ ∃ final w',
      run_simulation 2 one_bid no_effects = (w', Ok final)
      ∧ transfer_offers final = [tatum_offer]
      ∧ episodes w' = [episode_of tatum_offer; episode_of tatum_offer]
      ∧ budget_of (teams final) "Toronto Raptors" = Some (100000000 - 1000 - 1000)
      ∧ budget_of (teams final) "Boston Celtics" = Some (100000000 + 1000 + 1000).
Proof.
  split_and!.
  - eexists. split; vm_compute; reflexivity.
  - vm_compute. reflexivity.
  - eexists _, _. split; [vm_compute; reflexivity|]. by vm_compute.
Qed.

(** ** What the agents let through *)

(** C9. An agent whose executor proposes a transfer with the buying or the
    selling team outside [valid_teams] logs the warning "Invalid transfer
    proposal", returns no offer, and returns normally: nothing is raised. *)
Theorem invalid_proposal_is_dropped_with_warning
    (team_name : string) (vt : list string) (o : Offer)
    (state : SimulationState) (w : World) :
  team_name ∈ dom (teams state) →
  to_team o ∉ vt ∨ from_team o ∉ vt →
  team_agent_function team_name vt (Some o) state w =
    (mkWorld (log w ++ [InvalidTransferProposal o]) (episodes w), Ok [])
  ∧ is_warning (InvalidTransferProposal o) = true.
Proof.
  intros Hteam Hinvalid. split; [|done].
  rewrite team_agent_function_run by done. unfold agent_log, agent_offers.
  by destruct (decide (to_team o ∉ vt ∨ from_team o ∉ vt)).
Qed.

Lemma invalid_proposal_is_dropped_with_warning_witness :
  team_agent_function "Boston Celtics" valid_teams (Some lakers_offer)
                      (initial_state 1) no_effects =
    (mkWorld [InvalidTransferProposal lakers_offer] [], Ok [])
  ∧ is_warning (InvalidTransferProposal lakers_offer) = true.
Proof.
  apply (invalid_proposal_is_dropped_with_warning
           "Boston Celtics" valid_teams lakers_offer (initial_state 1) no_effects).
  - team_in_roster.
  - right. unfold valid_teams. cbn. rewrite !elem_of_cons, elem_of_nil.
    intros [?|[?|[?|[]]]]; discriminate.
Defined.

(** The statement of C10 fails: Boston proposes to buy Tatum from Boston.
    No warning is logged and the offer is in the list [process_transfers]
    is called on. *)
Lemma self_transfer_enters_resolution :
  let o := mkOffer "Boston Celtics" "Boston Celtics" "Jayson Tatum" 1000 in
  let inp := mkInput "Tatum scores 50"
               (λ team, if decide (team = "Boston Celtics") then Some o else None) in
  to_team o = from_team o
  ∧ ∃ state w',
      resolution_input inp (initial_state 1) no_effects = (w', Ok state)
      ∧ log w' = []
      ∧ transfer_offers state = [o].
Proof.
  intros o inp. split; [done|].
  eexists _, _. split; [vm_compute; reflexivity|]. by vm_compute.
Qed.

(** C10, as amended. In a turn started on a state whose teams include the
    three of [valid_teams] and whose pending offers all name teams of
    [valid_teams] (no offer at all, for [run_simulation]), every offer in
    the state [process_transfers] is called on has its buying and its
    selling team in [valid_teams]; so has every offer the graph holds after
    the turn.  Nothing asks the two teams to differ. *)
Theorem offers_entering_resolution_are_in_roster
    (inp : TurnInput) (channels : SimulationState) (w : World) :
  Forall (λ team, team ∈ dom (teams channels)) valid_teams →
  Forall roster_valid (transfer_offers channels) →
  ∃ state w1 final w2,
    resolution_input inp channels w = (w1, Ok state)
    ∧ Forall roster_valid (transfer_offers state)
    ∧ turn inp channels w = (w2, Ok final)
    ∧ Forall roster_valid (transfer_offers final)
    ∧ Forall (λ team, team ∈ dom (teams final)) valid_teams.
Proof.
  intros Hroster Hvalid.
  destruct (turn_run inp channels w Hroster) as [w2 Hturn].
  eexists _, _, _, w2. split; [by apply resolution_input_run|].
  assert (Forall roster_valid (transfer_offers (entering inp channels))) as Henter.
  { unfold entering. cbn [transfer_offers].
    apply Forall_app. split; [done | apply collected_valid]. }
  split_and!; [done|exact Hturn|done|].
  rewrite Forall_forall in Hroster |- *. intros team Hteam.
  rewrite turn_roster. by apply Hroster.
Qed.

Lemma offers_entering_resolution_are_in_roster_witness :
  ∃ state w1 final w2,
    resolution_input (one_bid 0%nat) (initial_state 2) no_effects = (w1, Ok state)
    ∧ Forall roster_valid (transfer_offers state)
    ∧ turn (one_bid 0%nat) (initial_state 2) no_effects = (w2, Ok final)
    ∧ Forall roster_valid (transfer_offers final)
    ∧ Forall (λ team, team ∈ dom (teams final)) valid_teams.
Proof.
  apply (offers_entering_resolution_are_in_roster
           (one_bid 0%nat) (initial_state 2) no_effects).
  - apply initial_state_roster.
  - constructor.
Defined.

(** * Further properties

    Properties of code the claims do not reach, and of the code they reach
    beyond what they say. *)

(** ** Strings as lists of characters *)

Lemma chars_app (a b : string) : chars (a +:+ b) = chars a ++ chars b.
Proof.
  unfold chars. induction a as [|c a IH]; [done|].
  change (String c a +:+ b) with (String c (a +:+ b)). cbn. by rewrite IH.
Qed.

Lemma chars_text (l : list ascii) : chars (text l) = l.
Proof. apply String.list_ascii_of_string_of_list_ascii. Qed.

Lemma text_chars (s : string) : text (chars s) = s.
Proof. apply String.string_of_list_ascii_of_string. Qed.

(** ** The two searches *)

Section Search.
Implicit Types (d pre suf s g a rest : list ascii) (c : ascii).

Lemma contains_cons d c s :
  contains d (c :: s) = false → ¬ d `prefix_of` (c :: s) ∧ contains d s = false.
Proof. cbn. by case_decide. Qed.

Lemma prefix_short d s rest :
  d `prefix_of` s ++ rest → (length d ≤ length s)%nat → d `prefix_of` s.
Proof.
  intros [k Hk] Hlen.
  assert (d = take (length d) s) as ->.
  { rewrite <- (take_app_le s rest) by done. rewrite Hk. by rewrite take_app_length. }
  apply prefix_take.
Qed.

Lemma lazy_group_unfold suf s :
  lazy_group suf s =
    if decide (suf `prefix_of` s) then Some []
    else match s with
         | [] => None
         | c :: s' => if decide (c = newline) then None else (c ::.) <$> lazy_group suf s'
         end.
Proof. by destruct s. Qed.

Lemma re_search_group_unfold pre suf s :
  re_search_group pre suf s =
    match (if decide (pre `prefix_of` s) then lazy_group suf (drop (length pre) s)
           else None), s with
    | Some g, _ => Some g
    | None, [] => None
    | None, _ :: s' => re_search_group pre suf s'
    end.
Proof. by destruct s. Qed.

(** The lazy group ends at the first place where the suffix follows. *)
Lemma lazy_group_found init l g rest :
  newline ∉ g →
  contains (init ++ [l]) (g ++ init) = false →
  lazy_group (init ++ [l]) (g ++ (init ++ [l]) ++ rest) = Some g.
Proof.
  induction g as [|c g IH]; intros Hnl Hfree.
  - rewrite lazy_group_unfold, decide_True; [done|]. by exists rest.
  - apply not_elem_of_cons in Hnl as [Hc Hnl].
    cbn [app] in Hfree. apply contains_cons in Hfree as [Hhere Hfree].
    rewrite lazy_group_unfold. cbn [app]. rewrite decide_False.
    + rewrite decide_False by done. by rewrite IH.
    + intros Hpre. apply Hhere.
      apply (prefix_short _ _ ([l] ++ rest)).
      * replace ((c :: g ++ init) ++ [l] ++ rest)
          with (c :: g ++ (init ++ [l]) ++ rest); [done|].
        cbn. by rewrite <- !(assoc_L (++)).
      * cbn. rewrite !length_app. cbn. lia.
Qed.

(** The search stops at the first occurrence of the prefix. *)
Lemma re_search_group_found pinit pl suf a s g :
  contains (pinit ++ [pl]) (a ++ pinit) = false →
  lazy_group suf s = Some g →
  re_search_group (pinit ++ [pl]) suf (a ++ (pinit ++ [pl]) ++ s) = Some g.
Proof.
  intros Hfree Hg. induction a as [|c a IH].
  - rewrite re_search_group_unfold. cbn [app].
    rewrite decide_True by (by exists s).
    by rewrite drop_app_length, Hg.
  - cbn [app] in Hfree. apply contains_cons in Hfree as [Hhere Hfree].
    rewrite re_search_group_unfold. cbn [app]. rewrite decide_False; [by apply IH|].
    intros Hpre. apply Hhere.
    apply (prefix_short _ _ ([pl] ++ s)).
    + replace ((c :: a ++ pinit) ++ [pl] ++ s)
        with (c :: a ++ (pinit ++ [pl]) ++ s); [done|].
      cbn. by rewrite <- !(assoc_L (++)).
    + cbn. rewrite !length_app. cbn. lia.
Qed.

(** With nothing to find first, the group starts at the head of the text. *)
Lemma re_search_group_head suf s g :
  lazy_group suf s = Some g → re_search_group [] suf s = Some g.
Proof.
  intros Hg. rewrite re_search_group_unfold.
  rewrite decide_True by apply prefix_nil.
  change (drop (length []) s) with s. by rewrite Hg.
Qed.

Lemma span_run (p : ascii → bool) run rest :
  forallb p run = true →
  (∀ c rest', rest = c :: rest' → p c = false) →
  span p (run ++ rest) = run.
Proof.
  intros Hrun Hrest. induction run as [|c run IH].
  - destruct rest as [|c rest']; [done|]. cbn. by rewrite (Hrest c rest').
  - cbn in Hrun |- *. apply andb_true_iff in Hrun as [-> Hrun]. by rewrite IH.
Qed.

Lemma re_search_price_found a run rest :
  dollar ∉ a → run ≠ [] →
  forallb price_char run = true →
  (∀ c rest', rest = c :: rest' → price_char c = false) →
  re_search_price (a ++ dollar :: run ++ rest) = Some run.
Proof.
  intros Ha Hne Hrun Hrest. induction a as [|c a IH].
  - cbn. rewrite span_run by done. by destruct run.
  - apply not_elem_of_cons in Ha as [Hc Ha]. cbn [app re_search_price].
    rewrite decide_False by done. by apply IH.
Qed.

(** Without a dollar sign that a digit or a comma follows, no price. *)
Lemma re_search_price_none s :
  (∀ a c rest, s = a ++ dollar :: c :: rest → price_char c = false) →
  re_search_price s = None.
Proof.
  induction s as [|c s IH]; intros Hs; [done|].
  assert (re_search_price s = None) as Hrest.
  { apply IH. intros a c' rest ->. by apply (Hs (c :: a) c' rest). }
  cbn. case_decide as Hc; [|done]. subst c.
  destruct s as [|c' s]; [done|].
  cbn. by rewrite (Hs [] c' s eq_refl).
Qed.
End Search.

(** ** Writing a price and reading it back *)

Section Digits.
Implicit Types (l : list ascii) (c : ascii).

Lemma foldl_digits n l :
  foldl (λ n c, 10 * n + digit_value c) n l = n * 10 ^ Z.of_nat (length l) + digits_value l.
Proof.
  unfold digits_value. revert n. induction l as [|c l IH]; intros n; [cbn; lia|].
  cbn [foldl length]. rewrite IH, (IH (10 * 0 + _)).
  rewrite Nat2Z.inj_succ, Z.pow_succ_r by lia. lia.
Qed.

Lemma digits_value_cons c l :
  digits_value (c :: l) = digit_value c * 10 ^ Z.of_nat (length l) + digits_value l.
Proof. unfold digits_value at 1. cbn [foldl]. rewrite foldl_digits. lia. Qed.

Lemma pretty_N_char_digit (d : N) :
  (d < 10)%N →
  is_digit (pretty_N_char d) = true ∧ digit_value (pretty_N_char d) = Z.of_N d.
Proof.
  intros Hd.
  assert (d = 0 ∨ d = 1 ∨ d = 2 ∨ d = 3 ∨ d = 4 ∨ d = 5 ∨ d = 6 ∨ d = 7 ∨ d = 8 ∨ d = 9)%N
    as Hcases by lia.
  repeat (destruct Hcases as [->|Hcases]; [by vm_compute|]). subst. by vm_compute.
Qed.

Lemma pretty_N_go_digits (x : N) : ∀ s : string,
  forallb is_digit (chars s) = true →
  forallb is_digit (chars (pretty_N_go x s)) = true
  ∧ digits_value (chars (pretty_N_go x s)) =
      Z.of_N x * 10 ^ Z.of_nat (length (chars s)) + digits_value (chars s).
Proof.
  induction (N.lt_wf_0 x) as [x _ IH]. intros s Hs.
  destruct (decide (x = 0%N)) as [->|Hx].
  - rewrite pretty_N_go_0. split; [done|lia].
  - rewrite pretty_N_go_step by lia.
    destruct (pretty_N_char_digit (x `mod` 10)) as [Hd Hv].
    { apply N.mod_lt. lia. }
    destruct (IH (x `div` 10)%N) with (s := String (pretty_N_char (x `mod` 10)) s)
      as [Hdigits Hvalue].
    { apply N.div_lt; lia. }
    { change (chars (String ?c ?s)) with (c :: chars s). cbn. by rewrite Hd. }
    split; [done|]. rewrite Hvalue.
    change (chars (String ?c ?s)) with (c :: chars s).
    rewrite digits_value_cons, Hv. cbn [length].
    rewrite Nat2Z.inj_succ, Z.pow_succ_r by lia.
    pose proof (N.div_mod x 10 ltac:(lia)) as Hdm.
    rewrite N2Z.inj_mod. rewrite N2Z.inj_div.
    pose proof (Z.div_mod (Z.of_N x) 10 ltac:(lia)). change (Z.of_N 10) with 10. lia.
Qed.

(** The decimal digits of a number read back as the number. *)
Lemma pretty_N_digits (n : N) :
  chars (pretty n) ≠ []
  ∧ forallb is_digit (chars (pretty n)) = true
  ∧ digits_value (chars (pretty n)) = Z.of_N n.
Proof.
  unfold pretty, pretty_N. case_decide as Hn; [subst; by vm_compute|].
  destruct (pretty_N_go_digits n "" eq_refl) as [Hd Hv].
  change (chars "") with (@nil ascii) in Hv.
  change (digits_value []) with 0 in Hv. change (Z.of_nat (length [])) with 0 in Hv.
  rewrite Z.pow_0_r in Hv. split_and!; [|done|lia].
  intros Hnil. rewrite Hnil in Hv. change (digits_value []) with 0 in Hv. lia.
Qed.
End Digits.

Section Commas.
Implicit Types (l : list ascii) (c : ascii).

Lemma group3_rev_unfold l :
  group3_rev l =
    match l with
    | a :: b :: c :: ((_ :: _) as rest) => a :: b :: c :: comma :: group3_rev rest
    | _ => l
    end.
Proof. by destruct l as [|? [|? [|? [|? ?]]]]. Qed.

(** Induction three characters at a time. *)
Lemma by_threes (Q : list ascii → Prop) :
  (∀ l, (length l ≤ 3)%nat → Q l) →
  (∀ a b c d rest, Q (d :: rest) → Q (a :: b :: c :: d :: rest)) →
  ∀ l, Q l.
Proof.
  intros Hshort Hstep l.
  assert (∀ n l', (length l' ≤ n)%nat → Q l') as Hall; [|by apply (Hall (length l))].
  induction n as [|n IHn]; intros l' Hl'.
  - apply Hshort. lia.
  - destruct l' as [|a [|b [|c [|d rest]]]]; try (apply Hshort; cbn; lia).
    apply Hstep, IHn. cbn in Hl' |- *. lia.
Qed.

Lemma group3_rev_without_commas l :
  filter (λ c, c ≠ comma) (group3_rev l) = filter (λ c, c ≠ comma) l.
Proof.
  induction l as [l Hl|a b c d rest IH] using by_threes.
  - destruct l as [|? [|? [|? [|? ?]]]]; [done..|]. cbn in Hl. lia.
  - rewrite group3_rev_unfold.
    rewrite !(filter_cons _ a), !(filter_cons _ b), !(filter_cons _ c).
    rewrite (filter_cons _ comma).
    rewrite (decide_False (P := comma ≠ comma)) by (intros Hne; by apply Hne).
    by rewrite IH.
Qed.

Lemma price_char_digit c : is_digit c = true → price_char c = true.
Proof. intros Hc. unfold price_char. by rewrite Hc. Qed.

Lemma forallb_price_chars l :
  forallb is_digit l = true → forallb price_char l = true.
Proof.
  induction l as [|c l IH]; [done|]. cbn.
  intros [Hc Hl]%andb_true_iff. by rewrite price_char_digit, IH.
Qed.

Lemma group3_rev_price_chars l :
  forallb is_digit l = true → forallb price_char (group3_rev l) = true.
Proof.
  induction l as [l Hl|a b c d rest IH] using by_threes.
  - replace (group3_rev l) with l; [apply forallb_price_chars|].
    destruct l as [|? [|? [|? [|? ?]]]]; [done..|]. cbn in Hl. lia.
  - rewrite group3_rev_unfold. cbn [forallb].
    intros [Ha [Hb [Hc Hrest]%andb_true_iff]%andb_true_iff]%andb_true_iff.
    rewrite !price_char_digit by done. by rewrite IH.
Qed.

Lemma group3_rev_nil l : group3_rev l = [] → l = [].
Proof. by destruct l as [|? [|? [|? [|? ?]]]]. Qed.
End Commas.

Section PriceText.
Implicit Types (l : list ascii) (c : ascii).

Lemma forallb_rev_chars (p : ascii → bool) l : forallb p (rev l) = forallb p l.
Proof.
  induction l as [|c l IH]; [done|]. cbn. rewrite forallb_app, IH. cbn.
  by rewrite andb_true_r, andb_comm.
Qed.

Lemma filter_rev_chars (P : ascii → Prop) `{!∀ c, Decision (P c)} l :
  filter P (rev l) = rev (filter P l).
Proof.
  induction l as [|c l IH]; [done|]. cbn [rev].
  rewrite filter_app, IH, filter_cons, (filter_cons _ c), filter_nil.
  case_decide; [done | by rewrite app_nil_r].
Qed.

Lemma filter_digits l :
  forallb is_digit l = true → filter (λ c, c ≠ comma) l = l.
Proof.
  induction l as [|c l IH]; [done|]. cbn [forallb].
  intros [Hc Hl]%andb_true_iff. rewrite filter_cons, decide_True, IH; [done..|].
  intros ->. by vm_compute in Hc.
Qed.

Lemma digits_value_nonneg l : forallb is_digit l = true → 0 ≤ digits_value l.
Proof.
  induction l as [|c l IH]; [done|]. cbn [forallb].
  intros [Hc Hl]%andb_true_iff. rewrite digits_value_cons.
  assert (0 ≤ digit_value c).
  { unfold is_digit in Hc. apply andb_true_iff in Hc as [Hlo _].
    apply Nat.leb_le in Hlo. unfold digit_value. lia. }
  specialize (IH Hl). assert (0 ≤ 10 ^ Z.of_nat (length l)) by lia. nia.
Qed.

Lemma py_int_digits l :
  l ≠ [] → forallb is_digit l = true → py_int l = Ok (digits_value l).
Proof.
  intros Hne Hl. unfold py_int. by rewrite bool_decide_true, Hl.
Qed.

Lemma format_commas_chars (z : Z) :
  0 ≤ z →
  chars (format_commas z) = rev (group3_rev (rev (chars (pretty (Z.to_N z))))).
Proof.
  intros Hz. destruct z as [|p|p]; [| |lia];
    unfold format_commas, commas_N; apply chars_text.
Qed.

(** What [f'{z:,}'] writes for [z ≥ 0] is a run of digits and commas that
    reads back as [z] once the commas are taken out. *)
Lemma price_text_reads_back (z : Z) :
  0 ≤ z →
  chars (format_commas z) ≠ []
  ∧ forallb price_char (chars (format_commas z)) = true
  ∧ py_int (filter (λ c, c ≠ comma) (chars (format_commas z))) = Ok z.
Proof.
  intros Hz. rewrite format_commas_chars by done.
  destruct (pretty_N_digits (Z.to_N z)) as (Hne & Hdigits & Hvalue).
  set (ds := chars (pretty (Z.to_N z))) in *.
  split_and!.
  - intros Hnil. apply (f_equal (@rev ascii)) in Hnil. rewrite rev_involutive in Hnil.
    cbn in Hnil. apply group3_rev_nil in Hnil.
    apply (f_equal (@rev ascii)) in Hnil. rewrite rev_involutive in Hnil. done.
  - rewrite forallb_rev_chars. apply group3_rev_price_chars. by rewrite forallb_rev_chars.
  - rewrite filter_rev_chars, group3_rev_without_commas, <- filter_rev_chars, rev_involutive.
    rewrite filter_digits by done. rewrite py_int_digits by done.
    rewrite Hvalue. f_equal. lia.
Qed.

Lemma price_chars_no_dollar l : forallb price_char l = true → dollar ∉ l.
Proof.
  induction l as [|c l IH]; [intros _; apply not_elem_of_nil|]. cbn [forallb].
  intros [Hc Hl]%andb_true_iff. apply not_elem_of_cons. split; [|by apply IH].
  intros <-. by vm_compute in Hc.
Qed.
End PriceText.

(** A closed decidable fact, by evaluation. *)
Ltac by_evaluation := apply (bool_decide_unpack _); by vm_compute.

(** ** The sentence of [propose_transfer], read by [parse_transfer_proposal] *)

Section Sentence.
Context (player_name from_team to_team : string) (proposed_price : Z).

Lemma sentence_chars :
  chars (propose_transfer player_name from_team to_team proposed_price) =
    chars "TRANSFER PROPOSAL: " ++ chars to_team ++ chars " wants to buy "
      ++ chars player_name ++ chars " from " ++ chars from_team ++ chars " for $"
      ++ chars (format_commas proposed_price) ++ chars ".".
Proof. unfold propose_transfer. by rewrite !chars_app. Qed.

Lemma parse_propose_to_team :
  newline ∉ chars to_team →
  occurs_in " wants to buy" ("TRANSFER PROPOSAL: " +:+ to_team +:+ " wants to bu") = false →
  re_search_group [] (chars " wants to buy")
      (chars (propose_transfer player_name from_team to_team proposed_price))
    = Some (chars ("TRANSFER PROPOSAL: " +:+ to_team)).
Proof.
  intros Hnl Hfree. apply re_search_group_head.
  unfold occurs_in in Hfree. rewrite !chars_app in Hfree.
  rewrite sentence_chars, chars_app.
  pose proof (lazy_group_found (chars " wants to bu") "y"%char
                (chars "TRANSFER PROPOSAL: " ++ chars to_team)
                (chars " " ++ chars player_name ++ chars " from " ++ chars from_team
                   ++ chars " for $" ++ chars (format_commas proposed_price) ++ chars "."))
    as Hfound.
  rewrite <- !(assoc_L (++)) in Hfound. apply Hfound; [|done].
  apply not_elem_of_app. split; [by_evaluation|done].
Qed.

Lemma parse_propose_player_name :
  newline ∉ chars player_name →
  occurs_in "buy " ("TRANSFER PROPOSAL: " +:+ to_team +:+ " wants to buy") = false →
  occurs_in " from" (player_name +:+ " fro") = false →
  re_search_group (chars "buy ") (chars " from")
      (chars (propose_transfer player_name from_team to_team proposed_price))
    = Some (chars player_name).
Proof.
  intros Hnl Hpre Hsuf. unfold occurs_in in Hpre, Hsuf.
  rewrite !chars_app in Hpre. rewrite !chars_app in Hsuf.
  rewrite sentence_chars.
  pose proof (re_search_group_found (chars "buy") " "%char (chars " from")
                (chars "TRANSFER PROPOSAL: " ++ chars to_team ++ chars " wants to ")
                (chars player_name ++ (chars " fro" ++ ["m"%char])
                   ++ chars " " ++ chars from_team
                   ++ chars " for $" ++ chars (format_commas proposed_price) ++ chars ".")
                (chars player_name))
    as Hfound.
  rewrite <- !(assoc_L (++)) in Hfound. apply Hfound; [exact Hpre|].
  pose proof (lazy_group_found (chars " fro") "m"%char (chars player_name)
                (chars " " ++ chars from_team
                   ++ chars " for $" ++ chars (format_commas proposed_price) ++ chars "."))
    as Hlazy.
  rewrite <- !(assoc_L (++)) in Hlazy. apply Hlazy; [done | exact Hsuf].
Qed.

Lemma parse_propose_from_team :
  newline ∉ chars from_team →
  occurs_in "from " ("TRANSFER PROPOSAL: " +:+ to_team +:+ " wants to buy "
                       +:+ player_name +:+ " from") = false →
  occurs_in " for" (from_team +:+ " fo") = false →
  re_search_group (chars "from ") (chars " for")
      (chars (propose_transfer player_name from_team to_team proposed_price))
    = Some (chars from_team).
Proof.
  intros Hnl Hpre Hsuf. unfold occurs_in in Hpre, Hsuf.
  rewrite !chars_app in Hpre. rewrite !chars_app in Hsuf.
  rewrite sentence_chars.
  pose proof (re_search_group_found (chars "from") " "%char (chars " for")
                (chars "TRANSFER PROPOSAL: " ++ chars to_team ++ chars " wants to buy "
                   ++ chars player_name ++ chars " ")
                (chars from_team ++ (chars " fo" ++ ["r"%char])
                   ++ chars " $" ++ chars (format_commas proposed_price) ++ chars ".")
                (chars from_team))
    as Hfound.
  rewrite <- !(assoc_L (++)) in Hfound. apply Hfound; [exact Hpre|].
  pose proof (lazy_group_found (chars " fo") "r"%char (chars from_team)
                (chars " $" ++ chars (format_commas proposed_price) ++ chars "."))
    as Hlazy.
  rewrite <- !(assoc_L (++)) in Hlazy. apply Hlazy; [done | exact Hsuf].
Qed.

Lemma before_the_price_no_dollar :
  dollar ∉ chars to_team → dollar ∉ chars player_name → dollar ∉ chars from_team →
  dollar ∉ chars "TRANSFER PROPOSAL: " ++ chars to_team ++ chars " wants to buy "
             ++ chars player_name ++ chars " from " ++ chars from_team ++ chars " for ".
Proof.
  intros Hto Hplayer Hfrom.
  repeat (apply not_elem_of_app; split); try done; by_evaluation.
Qed.

Lemma parse_propose_price :
  0 ≤ proposed_price →
  dollar ∉ chars to_team → dollar ∉ chars player_name → dollar ∉ chars from_team →
  re_search_price (chars (propose_transfer player_name from_team to_team proposed_price))
    = Some (chars (format_commas proposed_price)).
Proof.
  intros Hprice Hto Hplayer Hfrom. rewrite sentence_chars.
  destruct (price_text_reads_back proposed_price Hprice) as (Hne & Hclass & _).
  pose proof (re_search_price_found
                (chars "TRANSFER PROPOSAL: " ++ chars to_team ++ chars " wants to buy "
                   ++ chars player_name ++ chars " from " ++ chars from_team
                   ++ chars " for ")
                (chars (format_commas proposed_price)) (chars "."))
    as Hfound.
  rewrite <- !(assoc_L (++)) in Hfound. apply Hfound; [|done..|].
  - by apply before_the_price_no_dollar.
  - by intros c rest' [= <- _].
Qed.
End Sentence.

(** X1. What [propose_transfer] writes, [parse_transfer_proposal] reads
    back, for a price that is not negative and names on one line, without
    dollar sign, in which no delimiter of the sentence shows up early: the
    player, the selling team and the price are the ones written; the buying
    team comes back with the words "TRANSFER PROPOSAL: " in front, which
    the first pattern does not leave out. *)
Theorem parse_propose_round_trip (player_name from_team to_team : string) (proposed_price : Z) :
  0 ≤ proposed_price →
  plain player_name → plain from_team → plain to_team →
  delimiters_unambiguous player_name from_team to_team →
  parse_transfer_proposal (propose_transfer player_name from_team to_team proposed_price)
    = Ok (mkOffer ("TRANSFER PROPOSAL: " +:+ to_team) from_team player_name proposed_price).
Proof.
  intros Hprice [Hp1 Hp2] [Hf1 Hf2] [Ht1 Ht2] (H1 & H2 & H3 & H4 & H5).
  unfold parse_transfer_proposal.
  rewrite parse_propose_to_team, parse_propose_player_name, parse_propose_from_team,
    parse_propose_price by done.
  destruct (price_text_reads_back proposed_price Hprice) as (_ & _ & ->).
  by rewrite !text_chars.
Qed.

Lemma parse_propose_round_trip_witness :
  parse_transfer_proposal
      (propose_transfer "Jayson Tatum" "Boston Celtics" "Toronto Raptors" 1234567)
    = Ok (mkOffer "TRANSFER PROPOSAL: Toronto Raptors" "Boston Celtics" "Jayson Tatum"
                  1234567).
Proof.
  apply (parse_propose_round_trip "Jayson Tatum" "Boston Celtics" "Toronto Raptors" 1234567).
  - lia.
  - split; by_evaluation.
  - split; by_evaluation.
  - split; by_evaluation.
  - repeat split; by vm_compute.
Defined.

(** X2. A negative price is written as "$-...": no digit follows the dollar
    sign, the price pattern finds nothing and [parse_transfer_proposal]
    raises [ValueError] on the sentence [propose_transfer] has written. *)
Theorem parse_rejects_negative_price
    (player_name from_team to_team : string) (proposed_price : Z) :
  proposed_price < 0 →
  dollar ∉ chars player_name → dollar ∉ chars from_team → dollar ∉ chars to_team →
  parse_transfer_proposal (propose_transfer player_name from_team to_team proposed_price)
    = Raise (ValueError ("Unable to parse transfer proposal: "
               +:+ propose_transfer player_name from_team to_team proposed_price)).
Proof.
  intros Hprice Hplayer Hfrom Hto.
  assert (re_search_price
            (chars (propose_transfer player_name from_team to_team proposed_price)) = None)
    as Hnone.
  { apply re_search_price_none. intros a c rest Hsplit.
    destruct proposed_price as [|p|p]; [lia..|].
    destruct (price_text_reads_back (Zpos p) ltac:(lia)) as (_ & Hclass & _).
    assert (chars (propose_transfer player_name from_team to_team (Z.neg p)) =
              (chars "TRANSFER PROPOSAL: " ++ chars to_team ++ chars " wants to buy "
                 ++ chars player_name ++ chars " from " ++ chars from_team
                 ++ chars " for ")
              ++ dollar :: "-"%char :: chars (format_commas (Z.pos p)) ++ chars ".")
      as Hshape.
    { rewrite sentence_chars, <- !(assoc_L (++)).
      unfold format_commas. by rewrite chars_app. }
    rewrite Hshape in Hsplit.
    apply app_inj_pivot in Hsplit as [[[Hin _]|[Hin _]]|[_ Htail]].
    - exfalso. apply list_elem_of_In in Hin. revert Hin.
      by apply before_the_price_no_dollar.
    - exfalso. apply list_elem_of_In in Hin.
      apply elem_of_cons in Hin as [?|Hin]; [done|].
      apply elem_of_app in Hin as [Hin|Hin].
      + by apply price_chars_no_dollar in Hin.
      + revert Hin. by_evaluation.
    - by injection Htail as <- _. }
  unfold parse_transfer_proposal. rewrite Hnone.
  by repeat case_match.
Qed.

Lemma parse_rejects_negative_price_witness :
  parse_transfer_proposal
      (propose_transfer "Jayson Tatum" "Boston Celtics" "Toronto Raptors" (-5000))
    = Raise (ValueError ("Unable to parse transfer proposal: "
               +:+ propose_transfer "Jayson Tatum" "Boston Celtics" "Toronto Raptors"
                     (-5000))).
Proof.
  apply (parse_rejects_negative_price "Jayson Tatum" "Boston Celtics" "Toronto Raptors"
           (-5000)); [lia | by_evaluation..].
Defined.

Section Parsed.
Implicit Types (pre suf s g : list ascii).

Lemma lazy_group_one_line suf s : ∀ g, lazy_group suf s = Some g → newline ∉ g.
Proof.
  induction s as [|c s IH]; intros g; rewrite lazy_group_unfold.
  - case_decide; [|done]. intros [= <-]. apply not_elem_of_nil.
  - case_decide; [intros [= <-]; apply not_elem_of_nil|].
    case_decide; [done|].
    destruct (lazy_group suf s) as [g'|]; [|done]. intros [= <-].
    apply not_elem_of_cons. split; [done | by apply IH].
Qed.

Lemma re_search_group_one_line pre suf s g :
  re_search_group pre suf s = Some g → newline ∉ g.
Proof.
  induction s as [|c s IH]; rewrite re_search_group_unfold.
  - case_decide; [|done].
    destruct (lazy_group suf _) as [g'|] eqn:Hg; [|done].
    intros [= <-]. by eapply lazy_group_one_line.
  - case_decide; [|done].
    destruct (lazy_group suf _) as [g'|] eqn:Hg; [|done].
    intros [= <-]. by eapply lazy_group_one_line.
Qed.

Lemma py_int_nonneg l z : py_int l = Ok z → 0 ≤ z.
Proof.
  unfold py_int. destruct (bool_decide (l ≠ [])); [|done]. cbn.
  destruct (forallb is_digit l) eqn:Hl; [|done]. intros [= <-].
  by apply digits_value_nonneg.
Qed.
End Parsed.

(** X3. Whatever text it is given, a proposal that [parse_transfer_proposal]
    returns has a price that is not negative and three names without a
    newline in them. *)
Theorem parsed_proposal_is_one_line_with_nonnegative_price (proposal : string) (o : Offer) :
  parse_transfer_proposal proposal = Ok o →
  0 ≤ proposed_price o
  ∧ (newline ∉ chars (to_team o))
  ∧ (newline ∉ chars (player_name o))
  ∧ (newline ∉ chars (from_team o)).
Proof.
  unfold parse_transfer_proposal.
  destruct (re_search_group [] _ _) as [t|] eqn:Ht; [|done].
  destruct (re_search_group (chars "buy ") _ _) as [p|] eqn:Hp; [|done].
  destruct (re_search_group (chars "from ") _ _) as [f|] eqn:Hf; [|done].
  destruct (re_search_price _) as [price|]; [|done].
  destruct (py_int _) as [z|] eqn:Hz; [|done]. intros [= <-]. cbn.
  rewrite !chars_text. split_and!.
  - by eapply py_int_nonneg.
  - by eapply re_search_group_one_line.
  - by eapply re_search_group_one_line.
  - by eapply re_search_group_one_line.
Qed.

Lemma parsed_proposal_is_one_line_with_nonnegative_price_witness :
  let o := mkOffer "TRANSFER PROPOSAL: Toronto Raptors" "Boston Celtics" "Jayson Tatum"
                   1234567 in
  0 ≤ proposed_price o
  ∧ (newline ∉ chars (to_team o))
  ∧ (newline ∉ chars (player_name o))
  ∧ (newline ∉ chars (from_team o)).
Proof.
  apply (parsed_proposal_is_one_line_with_nonnegative_price
           (propose_transfer "Jayson Tatum" "Boston Celtics" "Toronto Raptors" 1234567)).
  by vm_compute.
Defined.

(** ** The grouping dictionary, seen from outside *)

(** X4. The dictionary [offers_by_player] has each player once; the list
    under a player is not empty and holds the offers for that player, all
    of them, in the order they have in [state['transfer_offers']]; every
    offer is in the list of its player. *)
Theorem offers_by_player_partitions_the_offers (offers : list Offer) :
  NoDup (group_offers offers).*1
  ∧ (∀ player group, (player, group) ∈ group_offers offers →
       group ≠ [] ∧ group = filter (λ o, player_name o = player) offers)
  ∧ (∀ o, o ∈ offers →
       ∃ group, (player_name o, group) ∈ group_offers offers ∧ o ∈ group).
Proof.
  rewrite group_offers_spec. split_and!.
  - assert (∀ ks : list string, ((λ k, (k, offers_for k offers)) <$> ks).*1 = ks) as ->.
    { induction ks as [|k ks IH]; [done|]. cbn. by rewrite IH. }
    apply NoDup_first_seen.
  - intros player group (k & [= -> ->] & Hk)%list_elem_of_fmap. split; [|done].
    apply elem_of_first_seen in Hk as (o & Ho & Hp).
    intros Hnil. eapply (filter_nil_not_elem_of (λ o, player_name o = k)); eauto.
  - intros o Ho. exists (offers_for (player_name o) offers). split.
    + apply list_elem_of_fmap. exists (player_name o). split; [done|].
      apply elem_of_first_seen. eauto.
    + by apply list_elem_of_filter.
Qed.

(** ** What [process_transfers] leaves alone *)

(** X5. Whenever [process_transfers] returns, it has only added: the
    messages, the log and the episodes it found are the beginning of those
    it leaves, with as many new episodes as new messages.  The set of
    teams, the event, the counter, the event list and the bound are as
    before. *)
Theorem process_transfers_only_appends (state state' : SimulationState) (w w' : World) :
  process_transfers state w = (w', Ok state') →
  messages state `prefix_of` messages state'
  ∧ log w `prefix_of` log w'
  ∧ episodes w `prefix_of` episodes w'
  ∧ length (episodes w') = (length (episodes w)
                            + (length (messages state') - length (messages state)))%nat
  ∧ dom (teams state') = dom (teams state)
  ∧ event state' = event state
  ∧ current_iteration state' = current_iteration state
  ∧ all_events state' = all_events state
  ∧ max_iterations state' = max_iterations state.
Proof.
  rewrite process_transfers_run. intros [= <- <-]. cbn.
  split_and!; try done; try (by eexists).
  - rewrite !length_app, !length_fmap. lia.
  - apply dom_foldl_settle.
Qed.

(** ** The budgets in closed form *)

Section NetGain.
Implicit Types (ts : gmap string TeamData) (o : Offer) (team : string).

Lemma gain_settle ts o' team o : gain (settle ts o') team o = gain ts team o.
Proof.
  unfold gain. pose proof (dom_settle ts o') as Hdom.
  destruct (decide (in_roster (settle ts o') o)) as [Hin|Hout],
           (decide (in_roster ts o)) as [Hin'|Hout']; try done;
    unfold in_roster in *; rewrite Hdom in *; done.
Qed.

Lemma net_gain_settle ts o' sel team : net_gain (settle ts o') sel team = net_gain ts sel team.
Proof.
  unfold net_gain. induction sel as [|o sel IH]; [done|].
  cbn. by rewrite IH, gain_settle.
Qed.

Lemma budget_of_settle ts o team b :
  budget_of ts team = Some b →
  budget_of (settle ts o) team = Some (b + gain ts team o).
Proof.
  unfold budget_of, gain, settle. intros Hb.
  destruct (ts !! team) as [[b']|] eqn:Hteam; [|done]. cbn in Hb. simplify_eq.
  destruct (decide (in_roster ts o)) as [Hin|Hout]; last first.
  { rewrite Hteam. cbn; f_equal; lia. }
  destruct (decide (to_team o = team)) as [Hto|Hto],
           (decide (from_team o = team)) as [Hfrom|Hfrom].
  - rewrite Hto, Hfrom, !lookup_alter_eq, Hteam. cbn; f_equal; lia.
  - rewrite Hto, lookup_alter_eq, lookup_alter_ne, Hteam by done. cbn; f_equal; lia.
  - rewrite Hfrom, lookup_alter_ne, lookup_alter_eq, Hteam by done. cbn; f_equal; lia.
  - rewrite !lookup_alter_ne, Hteam by done. cbn; f_equal; lia.
Qed.

Lemma budget_of_foldl_settle sel : ∀ ts team b,
  budget_of ts team = Some b →
  budget_of (foldl settle ts sel) team = Some (b + net_gain ts sel team).
Proof.
  induction sel as [|o sel IH]; intros ts team b Hb.
  - cbn [foldl]. rewrite Hb. change (net_gain ts [] team) with 0. f_equal. lia.
  - cbn [foldl]. rewrite (IH _ _ _ (budget_of_settle ts o team b Hb)).
    rewrite net_gain_settle.
    change (net_gain ts (o :: sel) team) with (gain ts team o + net_gain ts sel team).
    f_equal. lia.
Qed.
End NetGain.

(** X6. The budget of a team after [process_transfers] is its budget before
    plus what the executed offers bring it: for each executed offer with
    both teams in [state['teams']], the price if the team sells, minus the
    price if it buys. *)
Theorem budget_after_resolution
    (state : SimulationState) (w : World) (team : string) (b : Z) :
  budget_of (teams state) team = Some b →
  ∃ state' w',
    process_transfers state w = (w', Ok state')
    ∧ budget_of (teams state') team =
        Some (b + net_gain (teams state) (selected_offers (transfer_offers state)) team).
Proof.
  intros Hb. eexists _, _. split; [apply process_transfers_run|].
  cbn. by apply budget_of_foldl_settle.
Qed.

(** ** A team that the state does not know *)

Lemma team_agent_function_missing team vt out state w :
  team ∉ dom (teams state) →
  team_agent_function team vt out state w = (w, Raise (KeyError team)).
Proof.
  intros Hteam%not_elem_of_dom. unfold team_agent_function. by rewrite Hteam.
Qed.

Lemma collect_offers_missing agents output state : ∀ w,
  ¬ Forall (λ team, team ∈ dom (teams state)) agents →
  ∃ w' team,
    collect_offers agents output state w = (w', Raise (KeyError team))
    ∧ team ∈ agents ∧ (team ∉ dom (teams state))
    ∧ episodes w' = episodes w.
Proof.
  induction agents as [|team agents IH]; intros w Hmissing.
  - destruct Hmissing. constructor.
  - cbn [collect_offers]. unfold bind at 1.
    destruct (decide (team ∈ dom (teams state))) as [Hteam|Hteam].
    + rewrite team_agent_function_run by done. unfold bind at 1.
      destruct (IH (mkWorld (log w ++ agent_log valid_teams (output team)) (episodes w)))
        as (w' & t & -> & Ht & Hout & Hepisodes).
      { intros Hall. apply Hmissing. by constructor. }
      exists w', t. split_and!; [done|by right|done..].
    + rewrite team_agent_function_missing by done.
      exists w, team. split_and!; [done|by left|done..].
Qed.

(** X7. When [state['teams']] lacks one of the three teams of
    [valid_teams], the agent of a missing team raises [KeyError] at
    [state['teams'][team_name]]: the turn ends there, before any transfer is
    executed, and so does the run. *)
Theorem turn_raises_key_error_for_a_missing_team
    (inp : TurnInput) (channels : SimulationState) (w : World) (fuel : nat)
    (env : nat → TurnInput) (n : nat) :
  ¬ Forall (λ team, team ∈ dom (teams channels)) valid_teams →
  ∃ w' team,
    turn inp channels w = (w', Raise (KeyError team))
    ∧ team ∈ valid_teams
    ∧ (team ∉ dom (teams channels))
    ∧ episodes w' = episodes w
    ∧ ∃ w'' team',
        run_graph (S fuel) env n channels w = (w'', Raise (KeyError team'))
        ∧ team' ∉ dom (teams channels).
Proof.
  intros Hmissing.
  assert (∀ inp, ∃ w' team,
            turn inp channels w = (w', Raise (KeyError team))
            ∧ team ∈ valid_teams ∧ (team ∉ dom (teams channels))
            ∧ episodes w' = episodes w) as Hturn.
  { intros inp'. unfold turn, resolution_input, simulate_event, process_event.
    unfold bind at 1. unfold bind at 1. unfold ret at 1. unfold bind at 1. unfold ret at 1.
    unfold bind at 1.
    edestruct (collect_offers_missing valid_teams (agent_output inp')) as
      (w' & team & -> & Hteam & Hout & Hepisodes); [exact Hmissing|].
    by exists w', team. }
  destruct (Hturn inp) as (w' & team & Hrun & Hteam & Hout & Hepisodes).
  exists w', team. split_and!; [done..|].
  destruct (Hturn (env n)) as (w'' & team' & Hrun' & _ & Hout' & _).
  exists w'', team'. split; [|done].
  cbn [run_graph]. unfold bind. by rewrite Hrun'.
Qed.

(** ** What a turn collects *)

Lemma collected_from_agents (agents : list string) (output : string → JsonResult) :
  (length (collected agents output) ≤ length agents)%nat
  ∧ ∀ o, o ∈ collected agents output → ∃ team, team ∈ agents ∧ output team = Some o.
Proof.
  unfold collected. induction agents as [|team agents [IHlen IHin]].
  - split; [done|]. by intros o ?%elem_of_nil.
  - cbn [fmap list_fmap concat].
    assert ((length (agent_offers valid_teams (output team)) ≤ 1)%nat
            ∧ ∀ o, o ∈ agent_offers valid_teams (output team) → output team = Some o)
      as [Hlen Hin].
    { unfold agent_offers. destruct (output team) as [o'|]; [case_decide|]; cbn;
        (split; [lia|]); intros o Ho; try (by apply elem_of_nil in Ho).
      by apply list_elem_of_singleton in Ho as ->. }
    split.
    + rewrite length_app. cbn [length]. lia.
    + intros o [Ho|Ho]%elem_of_app.
      * exists team. split; [left|by apply Hin].
      * destruct (IHin o Ho) as (t & ? & ?). exists t. split; [by right|done].
Qed.

(** X8. In a turn the agents add at most three offers to those the graph
    holds, each one the proposal of some agent with both teams in
    [valid_teams]; collecting changes no budget and adds no episode. *)
Theorem turn_collects_at_most_one_offer_per_agent
    (inp : TurnInput) (channels : SimulationState) (w : World) :
  Forall (λ team, team ∈ dom (teams channels)) valid_teams →
  ∃ state w' new,
    resolution_input inp channels w = (w', Ok state)
    ∧ transfer_offers state = transfer_offers channels ++ new
    ∧ (length new ≤ 3)%nat
    ∧ Forall roster_valid new
    ∧ (∀ o, o ∈ new → ∃ team, team ∈ valid_teams ∧ agent_output inp team = Some o)
    ∧ teams state = teams channels
    ∧ episodes w' = episodes w.
Proof.
  intros Hroster. eexists _, _, (collected valid_teams (agent_output inp)).
  split; [by apply resolution_input_run|].
  destruct (collected_from_agents valid_teams (agent_output inp)) as [Hlen Hin].
  split_and!; [done|exact Hlen|apply collected_valid|exact Hin|done..].
Qed.

(** ** The whole run *)

Lemma events_cons env n turns :
  events env n (S turns) = new_event (env n) :: events env (S n) turns.
Proof. done. Qed.

(** [simulate_event] and [process_transfers] return the messages they were
    given, which the graph adds to those it holds: a turn leaves four times
    the messages it found, and two for the event and two for each transfer
    executed. *)
Lemma turn_messages inp channels :
  length (messages (resolved (entering inp channels))) =
    (4 * length (messages channels) + 2
     + 2 * length (selected_offers (transfer_offers (entering inp channels))))%nat.
Proof.
  cbn [resolved messages entering transfer_offers].
  rewrite !length_app, length_fmap. cbn [length]. lia.
Qed.

(** What a run of the loop that returns has done. *)
Lemma run_graph_returned fuel : ∀ env n channels w w' final,
  Forall (λ team, team ∈ dom (teams channels)) valid_teams →
  run_graph fuel env n channels w = (w', Ok final) →
  Z.max 1 (max_iterations channels - current_iteration channels) ≤ Z.of_nat fuel
  ∧ current_iteration final =
      current_iteration channels
      + Z.max 1 (max_iterations channels - current_iteration channels)
  ∧ max_iterations final = max_iterations channels
  ∧ all_events final =
      Some (default [] (all_events channels)
              ++ events env n (Z.to_nat (Z.max 1 (max_iterations channels
                                                    - current_iteration channels))))
  ∧ total_budget (teams final) = total_budget (teams channels)
  ∧ 4 ^ Z.max 1 (max_iterations channels - current_iteration channels)
      * (3 * Z.of_nat (length (messages channels)) + 2)
    ≤ 3 * Z.of_nat (length (messages final)) + 2.
Proof.
  induction fuel as [|fuel IH]; intros env n channels w w' final Hroster Hrun; [done|].
  cbn [run_graph] in Hrun. unfold bind in Hrun.
  destruct (turn_run (env n) channels w Hroster) as [w1 Hturn]. rewrite Hturn in Hrun.
  set (channels1 := resolved (entering (env n) channels)) in *.
  destruct (turn_counter (env n) channels) as [Hcur Hmax]. fold channels1 in Hcur, Hmax.
  pose proof (turn_total_budget (env n) channels) as Htotal. fold channels1 in Htotal.
  pose proof (turn_messages (env n) channels) as Hlen. fold channels1 in Hlen.
  assert (all_events channels1
          = Some (default [] (all_events channels) ++ [new_event (env n)])) as Hev by done.
  destruct (routing_function channels1) eqn:Hroute.
  - apply routing_function_END in Hroute. injection Hrun as <- <-.
    replace (Z.max 1 (max_iterations channels - current_iteration channels)) with 1 by lia.
    split_and!; [lia|lia|done|by rewrite Hev|done|].
    change (4 ^ 1) with 4. lia.
  - assert (¬ max_iterations channels1 ≤ current_iteration channels1) as Hlt.
    { intros Hge%routing_function_END. congruence. }
    destruct (IH env (S n) channels1 w1 w' final)
      as (Hfuel & Hfinal & Hmax' & Hevents & Htot' & Hmsg); [|exact Hrun|].
    { unfold channels1. rewrite Forall_forall in Hroster |- *.
      intros team Hteam. rewrite turn_roster. by apply Hroster. }
    set (left1 := Z.max 1 (max_iterations channels1 - current_iteration channels1)) in *.
    assert (Z.max 1 (max_iterations channels - current_iteration channels) = left1 + 1)
      as -> by lia.
    assert (1 ≤ left1) as Hleft by lia.
    split_and!; [lia|lia|congruence| |congruence|].
    + rewrite Hevents, Hev. change (default [] (Some ?x)) with x.
      rewrite <- (assoc_L (++)). do 2 f_equal.
      replace (Z.to_nat (left1 + 1)) with (S (Z.to_nat left1)) by lia.
      by rewrite events_cons.
    + rewrite Z.pow_add_r, Z.pow_1_r by lia.
      assert (0 < 4 ^ left1) as Hpow by (apply Z.pow_pos_nonneg; lia).
      etrans; [|exact Hmsg]. nia.
Qed.

(** X9. Whenever [run_simulation] returns, whatever number was asked for,
    it has made that many turns, and one turn if less than one was asked
    for: at most 49, the counter stands at the number of turns, [all_events]
    holds the events of the turns in order, the three budgets still sum to
    300,000,000, and the message list has grown at least fourfold with
    every turn: from no message to at least 2 * (4 ^ turns - 1) / 3. *)
Theorem returned_run_made_its_turns
    (num_iterations : Z) (env : nat → TurnInput) (w w' : World) (final : SimulationState) :
  run_simulation num_iterations env w = (w', Ok final) →
  let turns := Z.max 1 num_iterations in
  turns ≤ 49
  ∧ current_iteration final = turns
  ∧ max_iterations final = num_iterations
  ∧ all_events final = Some (events env 0 (Z.to_nat turns))
  ∧ total_budget (teams final) = 300000000
  ∧ 2 * 4 ^ turns ≤ 3 * Z.of_nat (length (messages final)) + 2.
Proof.
  intros Hrun turns. unfold run_simulation, app_invoke in Hrun.
  apply run_graph_returned in Hrun; [|apply initial_state_roster].
  change (Z.of_nat ((200 - 1) / 4)) with 49 in Hrun.
  change (max_iterations (initial_state num_iterations)) with num_iterations in Hrun.
  change (current_iteration (initial_state num_iterations)) with 0 in Hrun.
  change (all_events (initial_state num_iterations)) with (@None (list string)) in Hrun.
  change (messages (initial_state num_iterations)) with (@nil Message) in Hrun.
  rewrite Z.sub_0_r in Hrun. fold turns in Hrun.
  destruct Hrun as (Hfuel & Hcur & Hmax & Hevents & Htotal & Hmsg).
  split_and!; [done|lia|done|exact Hevents| |].
  - rewrite Htotal. by vm_compute.
  - etrans; [|exact Hmsg]. change (Z.of_nat (length [])) with 0. lia.
Qed.

Lemma budget_after_resolution_witness :
  ∃ state' w',
    process_transfers (state_with two_bids) no_effects = (w', Ok state')
    ∧ budget_of (teams state') "Toronto Raptors" =
        Some (100000000
              + net_gain (teams (state_with two_bids))
                         (selected_offers (transfer_offers (state_with two_bids)))
                         "Toronto Raptors").
Proof.
  apply (budget_after_resolution (state_with two_bids) no_effects
           "Toronto Raptors" 100000000).
  reflexivity.
Defined.

(** Toronto sells Barnes for 400 and buys Tatum for 1000. *)
Example toronto_net_gain :
  net_gain (teams (state_with two_bids))
           (selected_offers (transfer_offers (state_with two_bids))) "Toronto Raptors"
    = 400 - 1000.
Proof. by vm_compute. Qed.

Lemma turn_raises_key_error_for_a_missing_team_witness :
  ∃ w' team,
    turn (one_bid 0%nat) without_boston no_effects = (w', Raise (KeyError team))
    ∧ team ∈ valid_teams
    ∧ (team ∉ dom (teams without_boston))
    ∧ episodes w' = episodes no_effects
    ∧ ∃ w'' team',
        run_graph 50 one_bid 0%nat without_boston no_effects
          = (w'', Raise (KeyError team'))
        ∧ (team' ∉ dom (teams without_boston)).
Proof.
  apply (turn_raises_key_error_for_a_missing_team
           (one_bid 0%nat) without_boston no_effects 49 one_bid 0%nat).
  intros Hall. apply Forall_cons in Hall as [_ [Hboston _]%Forall_cons].
  apply elem_of_dom in Hboston as [team_data Hboston].
  vm_compute in Hboston. discriminate.
Defined.

Lemma turn_collects_at_most_one_offer_per_agent_witness :
  ∃ state w' new,
    resolution_input (one_bid 0%nat) (initial_state 2) no_effects = (w', Ok state)
    ∧ transfer_offers state = transfer_offers (initial_state 2) ++ new
    ∧ (length new ≤ 3)%nat
    ∧ Forall roster_valid new
    ∧ (∀ o, o ∈ new →
            ∃ team, team ∈ valid_teams ∧ agent_output (one_bid 0%nat) team = Some o)
    ∧ teams state = teams (initial_state 2)
    ∧ episodes w' = episodes no_effects.
Proof.
  apply (turn_collects_at_most_one_offer_per_agent
           (one_bid 0%nat) (initial_state 2) no_effects).
  apply initial_state_roster.
Defined.

Lemma process_transfers_only_appends_witness :
  ∃ state' w',
    process_transfers (state_with two_bids) no_effects = (w', Ok state')
    ∧ messages (state_with two_bids) `prefix_of` messages state'
    ∧ log no_effects `prefix_of` log w'
    ∧ episodes no_effects `prefix_of` episodes w'
    ∧ length (episodes w') =
        (length (episodes no_effects)
         + (length (messages state') - length (messages (state_with two_bids))))%nat
    ∧ dom (teams state') = dom (teams (state_with two_bids))
    ∧ event state' = event (state_with two_bids)
    ∧ current_iteration state' = current_iteration (state_with two_bids)
    ∧ all_events state' = all_events (state_with two_bids)
    ∧ max_iterations state' = max_iterations (state_with two_bids).
Proof.
  eexists _, _. split; [vm_compute; reflexivity|].
  eapply (process_transfers_only_appends (state_with two_bids) _ no_effects).
  vm_compute; reflexivity.
Defined.

Lemma returned_run_made_its_turns_witness :
  ∃ final w',
    run_simulation 2 one_bid no_effects = (w', Ok final)
    ∧ Z.max 1 2 ≤ 49
    ∧ current_iteration final = Z.max 1 2
    ∧ max_iterations final = 2
    ∧ all_events final = Some (events one_bid 0 (Z.to_nat (Z.max 1 2)))
    ∧ total_budget (teams final) = 300000000
    ∧ 2 * 4 ^ Z.max 1 2 ≤ 3 * Z.of_nat (length (messages final)) + 2.
Proof.
  eexists _, _. split; [vm_compute; reflexivity|].
  eapply (returned_run_made_its_turns 2 one_bid no_effects).
  vm_compute; reflexivity.
Defined.
